(** * Command dispatch and undo: remote control, devices, macro commands

    A shallow embedding of the command-pattern classes of
    [5-singleton-pattern.ts] (the version with [undo]): the devices
    [Light], [Stereo] and [CeilingFan], the concrete commands, the
    [MacroCommand] composite and the invokers [RemoteControl] and
    [RemoteLoaderWithUndo].

    Objects live in a heap and are named by references, so that one command
    object bound to several slots, or one fan shared by several commands, is
    one heap cell.  [console.log] appends a line to the heap's console. *)

From stdpp Require Import gmap strings list fin_maps pretty.
From Stdlib Require Import ZArith Lia.

Local Open Scope Z_scope.

(** ** Outcomes of a call *)

(** [TypeError] is what JavaScript raises when a method is called on
    [undefined] (an unbound slot).  [RangeError] is the call-stack overflow of
    a macro command that (transitively) contains itself; the recursion depth
    is the fuel of [execute] and [undo].  [Dangling] marks a reference to an
    object that is not in the heap; it cannot arise from the constructors
    below. *)
Inductive error := TypeError | RangeError | Dangling.

Inductive result (A : Type) :=
| Ok (a : A)
| Throw (e : error).
Arguments Ok {A} a.
Arguments Throw {A} e.

#[global] Instance result_ret : MRet result := λ A, Ok.
#[global] Instance result_bind : MBind result :=
  λ A B f m, match m with Ok a => f a | Throw e => Throw e end.

(** ** Objects and the heap *)

(** A reference is the index of an object in its table of the heap. *)
Abbreviation ref := nat (only parsing).

(** [class Light { location: string }] *)
Record Light := { Light_location : string }.

(** [class Stereo {}] has no fields. *)
Inductive Stereo := Stereo_object.

(** [class CeilingFan { location: string; speed: number }].  Only integers
    are ever stored in [speed]. *)
Record CeilingFan := { location : string; speed : Z }.

Definition HIGH : Z := 3.
Definition MEDIUM : Z := 2.
Definition LOW : Z := 1.
Definition OFF : Z := 0.

(** The four ceiling-fan command classes have the same fields and the same
    [undo]; they differ in the transition that [execute] invokes. *)
Inductive FanCommandClass :=
| CeilingFanMediumCommand
| CeilingFanHighCommand
| CeilingFanLowCommand
| CeilingFanOffCommand.

Inductive Command :=
| NoCommand
| LightOffCommand (light : ref)
| StereoOnWithCDCommand (stereo : ref)
| CeilingFanCommand (cls : FanCommandClass) (ceilingFan : ref) (prevSpeed : Z)
| MacroCommand (commands : list ref).

Record Heap := {
  lights : list Light;
  stereos : list Stereo;
  fans : list CeilingFan;
  cmds : list Command;
  console : list string
}.

Definition empty_heap : Heap :=
  {| lights := []; stereos := []; fans := []; cmds := []; console := [] |}.

Definition set_fans (fs : list CeilingFan) (h : Heap) : Heap :=
  {| lights := lights h; stereos := stereos h; fans := fs;
     cmds := cmds h; console := console h |}.

Definition set_cmds (cs : list Command) (h : Heap) : Heap :=
  {| lights := lights h; stereos := stereos h; fans := fans h;
     cmds := cs; console := console h |}.

(** [console.log(line)] *)
Definition console_log (line : string) (h : Heap) : Heap :=
  {| lights := lights h; stereos := stereos h; fans := fans h;
     cmds := cmds h; console := console h ++ [line] |}.

(** ** Constructors of the devices *)

Definition new_Light (loc : string) (h : Heap) : ref * Heap :=
  (length (lights h),
   {| lights := lights h ++ [{| Light_location := loc |}];
      stereos := stereos h; fans := fans h; cmds := cmds h;
      console := console h |}).

Definition new_Stereo (h : Heap) : ref * Heap :=
  (length (stereos h),
   {| lights := lights h; stereos := stereos h ++ [Stereo_object];
      fans := fans h; cmds := cmds h; console := console h |}).

Definition new_CeilingFan (loc : string) (h : Heap) : ref * Heap :=
  (length (fans h),
   set_fans (fans h ++ [{| location := loc; speed := OFF |}]) h).

(** ** Device transitions *)

Definition Light_off (l : ref) (h : Heap) : result Heap :=
  match lights h !! l with
  | Some o => Ok (console_log (Light_location o +:+ " light is off") h)
  | None => Throw Dangling
  end.

Definition Light_on (l : ref) (h : Heap) : result Heap :=
  match lights h !! l with
  | Some o => Ok (console_log (Light_location o +:+ " light is on") h)
  | None => Throw Dangling
  end.

Definition Stereo_on (s : ref) (h : Heap) : result Heap :=
  match stereos h !! s with
  | Some _ => Ok (console_log "Stereo is on" h)
  | None => Throw Dangling
  end.

Definition Stereo_off (s : ref) (h : Heap) : result Heap :=
  match stereos h !! s with
  | Some _ => Ok (console_log "Stereo is off" h)
  | None => Throw Dangling
  end.

Definition Stereo_setCD (s : ref) (h : Heap) : result Heap :=
  match stereos h !! s with
  | Some _ => Ok (console_log "Stereo is set for CD input" h)
  | None => Throw Dangling
  end.

Definition Stereo_setVolume (s : ref) (volume : Z) (h : Heap) : result Heap :=
  match stereos h !! s with
  | Some _ => Ok (console_log ("Stereo volume set to " +:+ pretty volume) h)
  | None => Throw Dangling
  end.

(** [this.speed = v; console.log(`${this.location} ceiling fan is ...`)] *)
Definition CeilingFan_set (f : ref) (v : Z) (what : string) (h : Heap)
  : result Heap :=
  match fans h !! f with
  | Some o =>
      Ok (console_log (location o +:+ what)
            (set_fans (<[f := {| location := location o; speed := v |}]> (fans h)) h))
  | None => Throw Dangling
  end.

Definition CeilingFan_high (f : ref) : Heap → result Heap :=
  CeilingFan_set f HIGH " ceiling fan is on high".
Definition CeilingFan_medium (f : ref) : Heap → result Heap :=
  CeilingFan_set f MEDIUM " ceiling fan is on medium".
Definition CeilingFan_low (f : ref) : Heap → result Heap :=
  CeilingFan_set f LOW " ceiling fan is on low".
Definition CeilingFan_off (f : ref) : Heap → result Heap :=
  CeilingFan_set f OFF " ceiling fan is off".

Definition CeilingFan_getSpeed (f : ref) (h : Heap) : result Z :=
  match fans h !! f with
  | Some o => Ok (speed o)
  | None => Throw Dangling
  end.

(** ** Constructors of the commands *)

Definition alloc_Command (c : Command) (h : Heap) : ref * Heap :=
  (length (cmds h), set_cmds (cmds h ++ [c]) h).

Definition new_NoCommand : Heap → ref * Heap := alloc_Command NoCommand.

Definition new_LightOffCommand (light : ref) : Heap → ref * Heap :=
  alloc_Command (LightOffCommand light).

Definition new_StereoOnWithCDCommand (stereo : ref) : Heap → ref * Heap :=
  alloc_Command (StereoOnWithCDCommand stereo).

(** [this.ceilingFan = ceilingFan; this.prevSpeed = ceilingFan.getSpeed()] *)
Definition new_CeilingFanCommand (cls : FanCommandClass) (ceilingFan : ref)
    (h : Heap) : result (ref * Heap) :=
  v ← CeilingFan_getSpeed ceilingFan h;
  mret (alloc_Command (CeilingFanCommand cls ceilingFan v) h).

Definition new_MacroCommand (commands : list ref) : Heap → ref * Heap :=
  alloc_Command (MacroCommand commands).

(** ** [execute] and [undo] *)

(** The transition a fan command's [execute] invokes. *)
Definition fan_transition (cls : FanCommandClass) (f : ref)
  : Heap → result Heap :=
  match cls with
  | CeilingFanMediumCommand => CeilingFan_medium f
  | CeilingFanHighCommand => CeilingFan_high f
  | CeilingFanLowCommand => CeilingFan_low f
  | CeilingFanOffCommand => CeilingFan_off f
  end.

(** [this.prevSpeed = this.ceilingFan.getSpeed(); this.ceilingFan.<cls>()] *)
Definition CeilingFanCommand_execute (c : ref) (cls : FanCommandClass)
    (f : ref) (h : Heap) : result Heap :=
  v ← CeilingFan_getSpeed f h;
  fan_transition cls f
    (set_cmds (<[c := CeilingFanCommand cls f v]> (cmds h)) h).

(** The [if / else if] chain over [this.prevSpeed]; when no branch matches
    nothing is done. *)
Definition CeilingFanCommand_undo (f : ref) (prev : Z) (h : Heap)
  : result Heap :=
  if prev =? HIGH then CeilingFan_high f h
  else if prev =? MEDIUM then CeilingFan_medium f h
  else if prev =? LOW then CeilingFan_low f h
  else if prev =? OFF then CeilingFan_off f h
  else Ok h.

(** [commands.forEach(command => f(command))] *)
Fixpoint forEach (f : ref → Heap → result Heap) (commands : list ref)
    (h : Heap) : result Heap :=
  match commands with
  | [] => Ok h
  | c :: rest => h' ← f c h; forEach f rest h'
  end.

Fixpoint execute (fuel : nat) (c : ref) (h : Heap) : result Heap :=
  match fuel with
  | O => Throw RangeError
  | S n =>
      match cmds h !! c with
      | None => Throw Dangling
      | Some NoCommand => Ok h
      | Some (LightOffCommand l) => Light_off l h
      | Some (StereoOnWithCDCommand s) =>
          h1 ← Stereo_on s h;
          h2 ← Stereo_setCD s h1;
          Stereo_setVolume s 11 h2
      | Some (CeilingFanCommand cls f _) => CeilingFanCommand_execute c cls f h
      | Some (MacroCommand cs) => forEach (execute n) cs h
      end
  end.

Fixpoint undo (fuel : nat) (c : ref) (h : Heap) : result Heap :=
  match fuel with
  | O => Throw RangeError
  | S n =>
      match cmds h !! c with
      | None => Throw Dangling
      | Some NoCommand => Ok h
      | Some (LightOffCommand l) => Light_on l h
      | Some (StereoOnWithCDCommand s) => Stereo_off s h
      | Some (CeilingFanCommand _ f prev) => CeilingFanCommand_undo f prev h
      | Some (MacroCommand cs) => forEach (undo n) cs h
      end
  end.

(** ** JavaScript arrays indexed by a number *)

(** [Command[]] as the invokers use it: [a[i] = v] stores under the key [i]
    and, when [i] is an array index at or beyond [length], extends [length]
    to [i + 1]; [a[i]] of a key never stored is [undefined].  Slot numbers
    are integers. *)
Record Array := { props : gmap Z ref; len : Z }.

Definition Array_empty : Array := {| props := ∅; len := 0 |}.

Definition Array_get (a : Array) (i : Z) : option ref := props a !! i.

Definition Array_set (a : Array) (i : Z) (v : ref) : Array :=
  {| props := <[i := v]> (props a);
     len := if (0 <=? i) && (i <? 2 ^ 32 - 1) && (len a <=? i)
            then i + 1 else len a |}.

(** ** [RemoteControl]: slots without undo *)

Module RemoteControl.

Record t := { onCommands : Array; offCommands : Array }.

(** [onCommands: Command[] = []; offCommands: Command[] = []] *)
Definition new : t :=
  {| onCommands := Array_empty; offCommands := Array_empty |}.

Definition setCommand (slot : Z) (onCommand offCommand : ref) (rc : t)
  : result t :=
  Ok {| onCommands := Array_set (onCommands rc) slot onCommand;
        offCommands := Array_set (offCommands rc) slot offCommand |}.

Definition onButtonWasPushed (fuel : nat) (slot : Z) (rc : t) (h : Heap)
  : result Heap :=
  match Array_get (onCommands rc) slot with
  | None => Throw TypeError
  | Some c => execute fuel c h
  end.

Definition offButtonWasPushed (fuel : nat) (slot : Z) (rc : t) (h : Heap)
  : result Heap :=
  match Array_get (offCommands rc) slot with
  | None => Throw TypeError
  | Some c => execute fuel c h
  end.

End RemoteControl.

(** ** [RemoteLoaderWithUndo]: slots and one undo target *)

Module RemoteLoaderWithUndo.

Record t := {
  onCommands : Array;
  offCommands : Array;
  undoCommand : ref
}.

Definition set_undoCommand (c : ref) (rc : t) : t :=
  {| onCommands := onCommands rc; offCommands := offCommands rc;
     undoCommand := c |}.

(** The constructor's loop, [count] iterations from index [i]:
    [onCommands[i] = new NoCommand(); offCommands[i] = new NoCommand()]. *)
Fixpoint fill (count : nat) (i : Z) (on off : Array) (h : Heap)
  : Array * Array * Heap :=
  match count with
  | O => (on, off, h)
  | S k =>
      let '(c1, h1) := new_NoCommand h in
      let '(c2, h2) := new_NoCommand h1 in
      fill k (i + 1) (Array_set on i c1) (Array_set off i c2) h2
  end.

(** The number of slots the constructor fills. *)
Definition capacity : Z := 7.

Definition new (h : Heap) : t * Heap :=
  let '(on, off, h1) := fill (Z.to_nat capacity) 0 Array_empty Array_empty h in
  let '(u, h2) := new_NoCommand h1 in
  ({| onCommands := on; offCommands := off; undoCommand := u |}, h2).

Definition setCommand (slot : Z) (onCommand offCommand : ref) (rc : t)
  : result t :=
  Ok {| onCommands := Array_set (onCommands rc) slot onCommand;
        offCommands := Array_set (offCommands rc) slot offCommand;
        undoCommand := undoCommand rc |}.

(** [this.onCommands[slot].execute(); this.undoCommand = this.onCommands[slot]] *)
Definition onButtonWasPushed (fuel : nat) (slot : Z) (st : t * Heap)
  : result (t * Heap) :=
  match Array_get (onCommands st.1) slot with
  | None => Throw TypeError
  | Some c => h' ← execute fuel c st.2; mret (set_undoCommand c st.1, h')
  end.

Definition offButtonWasPushed (fuel : nat) (slot : Z) (st : t * Heap)
  : result (t * Heap) :=
  match Array_get (offCommands st.1) slot with
  | None => Throw TypeError
  | Some c => h' ← execute fuel c st.2; mret (set_undoCommand c st.1, h')
  end.

(** [this.undoCommand.undo()] *)
Definition undoButtonWasPushed (fuel : nat) (st : t * Heap)
  : result (t * Heap) :=
  h' ← undo fuel (undoCommand st.1) st.2; mret (st.1, h').

End RemoteLoaderWithUndo.

(** ** Programs over the heap *)

(** What a client of the classes can do to a heap: construct objects, call a
    device's transitions, and call a command's [execute] or [undo] (the
    invokers reach the heap only through these).  A client can pass only
    objects that exist, so a constructor given a reference beyond the heap
    is [Dangling]. *)
Inductive Action :=
| New_Light (loc : string)
| New_Stereo
| New_CeilingFan (loc : string)
| New_NoCommand
| New_LightOffCommand (light : ref)
| New_StereoOnWithCDCommand (stereo : ref)
| New_CeilingFanCommand (cls : FanCommandClass) (ceilingFan : ref)
| New_MacroCommand (commands : list ref)
| Call_Light_on (l : ref)
| Call_Light_off (l : ref)
| Call_Stereo_on (s : ref)
| Call_Stereo_off (s : ref)
| Call_Stereo_setCD (s : ref)
| Call_Stereo_setVolume (s : ref) (volume : Z)
| Call_CeilingFan_high (f : ref)
| Call_CeilingFan_medium (f : ref)
| Call_CeilingFan_low (f : ref)
| Call_CeilingFan_off (f : ref)
| Call_execute (fuel : nat) (c : ref)
| Call_undo (fuel : nat) (c : ref).

Definition perform (a : Action) (h : Heap) : result Heap :=
  match a with
  | New_Light loc => Ok (new_Light loc h).2
  | New_Stereo => Ok (new_Stereo h).2
  | New_CeilingFan loc => Ok (new_CeilingFan loc h).2
  | New_NoCommand => Ok (new_NoCommand h).2
  | New_LightOffCommand l =>
      if decide (l < length (lights h))%nat
      then Ok (new_LightOffCommand l h).2 else Throw Dangling
  | New_StereoOnWithCDCommand s =>
      if decide (s < length (stereos h))%nat
      then Ok (new_StereoOnWithCDCommand s h).2 else Throw Dangling
  | New_CeilingFanCommand cls f =>
      p ← new_CeilingFanCommand cls f h; mret p.2
  | New_MacroCommand cs =>
      if decide (Forall (λ c, c < length (cmds h))%nat cs)
      then Ok (new_MacroCommand cs h).2 else Throw Dangling
  | Call_Light_on l => Light_on l h
  | Call_Light_off l => Light_off l h
  | Call_Stereo_on s => Stereo_on s h
  | Call_Stereo_off s => Stereo_off s h
  | Call_Stereo_setCD s => Stereo_setCD s h
  | Call_Stereo_setVolume s v => Stereo_setVolume s v h
  | Call_CeilingFan_high f => CeilingFan_high f h
  | Call_CeilingFan_medium f => CeilingFan_medium f h
  | Call_CeilingFan_low f => CeilingFan_low f h
  | Call_CeilingFan_off f => CeilingFan_off f h
  | Call_execute fuel c => execute fuel c h
  | Call_undo fuel c => undo fuel c h
  end.

(** The heaps a client can produce from nothing. *)
Inductive reachable : Heap → Prop :=
| reachable_empty : reachable empty_heap
| reachable_step a h h' :
    reachable h → perform a h = Ok h' → reachable h'.

(** ** Properties of heaps *)

Definition is_level (v : Z) : Prop :=
  v = OFF ∨ v = LOW ∨ v = MEDIUM ∨ v = HIGH.

(** Every fan's [speed] and every fan command's [prevSpeed] is one of the
    four levels. *)
Definition closed_speed (h : Heap) : Prop :=
  (∀ f o, fans h !! f = Some o → is_level (speed o)) ∧
  (∀ c cls f p, cmds h !! c = Some (CeilingFanCommand cls f p) → is_level p).

(** The children of a macro command were constructed before it. *)
Definition acyclic (h : Heap) : Prop :=
  ∀ m cs, cmds h !! m = Some (MacroCommand cs) → Forall (λ c, c < m)%nat cs.

(** Two commands of the same class on the same objects; only the snapshot
    of a fan command may differ. *)
Definition same_shape (c1 c2 : Command) : Prop :=
  match c1, c2 with
  | NoCommand, NoCommand => True
  | LightOffCommand l1, LightOffCommand l2 => l1 = l2
  | StereoOnWithCDCommand s1, StereoOnWithCDCommand s2 => s1 = s2
  | CeilingFanCommand k1 f1 _, CeilingFanCommand k2 f2 _ => k1 = k2 ∧ f1 = f2
  | MacroCommand cs1, MacroCommand cs2 => cs1 = cs2
  | _, _ => False
  end.

(** The device part of a heap. *)
Definition devices (h : Heap) : list Light * list Stereo * list CeilingFan :=
  (lights h, stereos h, fans h).

(** ** The state of a binary device, as reported *)

(** [Light] and [Stereo] store no on/off field: a transition only reports.
    The state of a binary device is therefore read off the console, as the
    last transition reported for it ([None] before any report). *)
Definition light_report (loc : string) (st : option bool) (line : string)
  : option bool :=
  if decide (line = loc +:+ " light is on") then Some true
  else if decide (line = loc +:+ " light is off") then Some false
  else st.

Definition reported_light (loc : string) (log : list string) : option bool :=
  foldl (light_report loc) None log.

Definition stereo_report (st : option bool) (line : string) : option bool :=
  if decide (line = "Stereo is on") then Some true
  else if decide (line = "Stereo is off") then Some false
  else st.

Definition reported_stereo (log : list string) : option bool :=
  foldl stereo_report None log.

(** [execute] then [undo] of the command [c] succeed and leave the light at
    [loc] in the state it was reported in before. *)
Definition restores_light (fuel : nat) (c : ref) (loc : string) (h : Heap)
  : Prop :=
  ∃ h1 h2, execute fuel c h = Ok h1 ∧ undo fuel c h1 = Ok h2 ∧
    reported_light loc (console h2) = reported_light loc (console h).

Definition restores_stereo (fuel : nat) (c : ref) (h : Heap) : Prop :=
  ∃ h1 h2, execute fuel c h = Ok h1 ∧ undo fuel c h1 = Ok h2 ∧
    reported_stereo (console h2) = reported_stereo (console h).

(** ** The order of a macro command, as specified *)

(** Running [f] on each command of the list from left to right, each one in
    the heap the one before left behind; a failure stops the run. *)
Definition in_list_order (f : ref → Heap → result Heap) (commands : list ref)
    (h : Heap) : result Heap :=
  foldl (λ acc c, acc ≫= f c) (Ok h) commands.

(** ** The target and the report of each fan transition *)

Definition fan_target (cls : FanCommandClass) : Z :=
  match cls with
  | CeilingFanMediumCommand => MEDIUM
  | CeilingFanHighCommand => HIGH
  | CeilingFanLowCommand => LOW
  | CeilingFanOffCommand => OFF
  end.

Definition fan_phrase (cls : FanCommandClass) : string :=
  match cls with
  | CeilingFanMediumCommand => " ceiling fan is on medium"
  | CeilingFanHighCommand => " ceiling fan is on high"
  | CeilingFanLowCommand => " ceiling fan is on low"
  | CeilingFanOffCommand => " ceiling fan is off"
  end.

(** The heap a fan command's [execute] leaves behind: the command [c] of
    class [cls] on the fan [f], whose record was [o]. *)
Definition after_execute (h : Heap) (c f : ref) (cls : FanCommandClass)
    (o : CeilingFan) : Heap :=
  console_log (location o +:+ fan_phrase cls)
    (set_fans (<[f := {| location := location o; speed := fan_target cls |}]> (fans h))
       (set_cmds (<[c := CeilingFanCommand cls f (speed o)]> (cmds h)) h)).

(** ** The objects wired by [RemoteLoader] *)

(** [RemoteLoader]'s constructor and the wiring at the start of its [main]:
    a remote, the living-room fan, the four fan commands, and slots 0 to 2
    bound to (medium, off), (high, off) and (low, off), the one off-command
    object shared by the three slots. *)
Definition RemoteLoader_wiring
  : result (RemoteLoaderWithUndo.t * ref * Heap) :=
  let '(remoteControl, h0) := RemoteLoaderWithUndo.new empty_heap in
  let '(ceilingFan, h1) := new_CeilingFan "Living Room" h0 in
  '(ceilingFanMedium, h2) ← new_CeilingFanCommand CeilingFanMediumCommand ceilingFan h1;
  '(ceilingFanHigh, h3) ← new_CeilingFanCommand CeilingFanHighCommand ceilingFan h2;
  '(ceilingFanLow, h4) ← new_CeilingFanCommand CeilingFanLowCommand ceilingFan h3;
  '(ceilingFanOff, h5) ← new_CeilingFanCommand CeilingFanOffCommand ceilingFan h4;
  rc1 ← RemoteLoaderWithUndo.setCommand 0 ceilingFanMedium ceilingFanOff remoteControl;
  rc2 ← RemoteLoaderWithUndo.setCommand 1 ceilingFanHigh ceilingFanOff rc1;
  rc3 ← RemoteLoaderWithUndo.setCommand 2 ceilingFanLow ceilingFanOff rc2;
  mret (rc3, ceilingFan, h5).

Definition wired_remote : RemoteLoaderWithUndo.t :=
  match RemoteLoader_wiring with
  | Ok (rc, _, _) => rc
  | Throw _ => (RemoteLoaderWithUndo.new empty_heap).1
  end.

Definition wired_heap : Heap :=
  match RemoteLoader_wiring with
  | Ok (_, _, h) => h
  | Throw _ => empty_heap
  end.

(** The wired heap after the fan was put on high by hand, so that every
    command's construction-time snapshot (OFF) is out of date. *)
Definition wired_heap_high : Heap :=
  match CeilingFan_high 0%nat wired_heap with
  | Ok h => h
  | Throw _ => wired_heap
  end.

(** A kitchen light with its off-command, and the heap after that command
    was executed once: the light is reported off. *)
Definition kitchen : Heap :=
  let '(light, h0) := new_Light "Kitchen" empty_heap in
  (new_LightOffCommand light h0).2.

Definition kitchen_off : Heap :=
  match execute 1 0%nat kitchen with
  | Ok h => h
  | Throw _ => kitchen
  end.

(** A stereo with its on-command, and the heap after that command was
    executed once: the stereo is reported on. *)
Definition den : Heap :=
  let '(stereo, h0) := new_Stereo empty_heap in
  (new_StereoOnWithCDCommand stereo h0).2.

Definition den_on : Heap :=
  match execute 1 0%nat den with
  | Ok h => h
  | Throw _ => den
  end.

(** The wired heap with a macro command of the high command and then the
    low command, both on the living-room fan. *)
Definition wired_macro_heap : Heap :=
  (new_MacroCommand [16; 17]%nat wired_heap).2.

(** The wired heap with a macro command of the high command, one of the
    low command, and a macro command of these two macro commands. *)
Definition nested_macro_heap : Heap :=
  let '(m1, h1) := new_MacroCommand [16]%nat wired_heap in
  let '(m2, h2) := new_MacroCommand [17]%nat h1 in
  (new_MacroCommand [m1; m2] h2).2.

(** ** Invokers on which no button was pushed yet *)

(** The states of a remote and its heap that arise from the constructor by
    binding slots, by pushing the undo button, and by anything a client does
    to the heap directly, but without a push of an on or off button. *)
Inductive untriggered : RemoteLoaderWithUndo.t * Heap → Prop :=
| untriggered_new h :
    untriggered (RemoteLoaderWithUndo.new h)
| untriggered_setCommand rc h slot on off rc' :
    untriggered (rc, h) →
    RemoteLoaderWithUndo.setCommand slot on off rc = Ok rc' →
    untriggered (rc', h)
| untriggered_perform rc h a h' :
    untriggered (rc, h) → perform a h = Ok h' → untriggered (rc, h')
| untriggered_undo st fuel st' :
    untriggered st →
    RemoteLoaderWithUndo.undoButtonWasPushed fuel st = Ok st' →
    untriggered st'.

(** ** The range check of [setCommand], as specified *)

(** Binding succeeds exactly on the slots below the capacity [cap]. *)
Definition bind_checks_range (rc : RemoteLoaderWithUndo.t) (cap : Z) : Prop :=
  ∀ slot on off,
    (∃ rc', RemoteLoaderWithUndo.setCommand slot on off rc = Ok rc')
    ↔ 0 ≤ slot < cap.

(** ** The primitive effects of a call *)

(** Every call on a device or a command changes the heap through these
    three steps only: a line on the console, a fan set to one of the four
    levels, and a fan command's snapshot overwritten with its fan's current
    speed. *)
Inductive prim : Heap → Heap → Prop :=
| prim_log line h :
    prim h (console_log line h)
| prim_fan f o v h :
    fans h !! f = Some o → is_level v →
    prim h (set_fans (<[f := {| location := location o; speed := v |}]> (fans h)) h)
| prim_snapshot c cls f p o h :
    cmds h !! c = Some (CeilingFanCommand cls f p) →
    fans h !! f = Some o →
    prim h (set_cmds (<[c := CeilingFanCommand cls f (speed o)]> (cmds h)) h).

(** Every reference held by a command names an object of the heap, and the
    children of a macro command are older than the macro command. *)
Definition valid_command (h : Heap) (c : ref) (x : Command) : Prop :=
  match x with
  | NoCommand => True
  | LightOffCommand l => (l < length (lights h))%nat
  | StereoOnWithCDCommand s => (s < length (stereos h))%nat
  | CeilingFanCommand _ f _ => (f < length (fans h))%nat
  | MacroCommand cs => Forall (λ c', c' < c)%nat cs
  end.

Definition valid_refs (h : Heap) : Prop :=
  ∀ c x, cmds h !! c = Some x → valid_command h c x.

(** What no call on a device or a command changes: the lights, the stereos,
    the number of fans, and the class and the references of every command. *)
Definition frame (h h' : Heap) : Prop :=
  lights h' = lights h ∧ stereos h' = stereos h ∧
  length (fans h') = length (fans h) ∧
  Forall2 same_shape (cmds h) (cmds h').


(** ** [Singleton] *)

Module Singleton.

(** The class: its static field [uniqueInstance] ([None] while it is
    [undefined]) and the [Singleton] objects constructed so far; an object
    has no field and is named by its index. *)
Record Class := { uniqueInstance : option ref; constructed : nat }.

Definition initial : Class := {| uniqueInstance := None; constructed := 0%nat |}.

(** [if (this.uniqueInstance === undefined) this.uniqueInstance = new
    Singleton(); return this.uniqueInstance] *)
Definition getInstance (k : Class) : ref * Class :=
  match uniqueInstance k with
  | None =>
      (constructed k,
       {| uniqueInstance := Some (constructed k);
          constructed := S (constructed k) |})
  | Some r => (r, k)
  end.

(** [count] calls in a row, with the instances they returned. *)
Fixpoint getInstances (count : nat) (k : Class) : list ref * Class :=
  match count with
  | O => ([], k)
  | S n =>
      let '(r, k1) := getInstance k in
      let '(rs, k2) := getInstances n k1 in
      (r :: rs, k2)
  end.

End Singleton.

(** ** [toString] of the remotes *)

(** The string of the line feed character (code 10). *)
Definition newline : string :=
  String (Ascii.Ascii false true false true false false false false) EmptyString.

(** [x.constructor.name] *)
Definition constructor_name (x : Command) : string :=
  match x with
  | NoCommand => "NoCommand"
  | LightOffCommand _ => "LightOffCommand"
  | StereoOnWithCDCommand _ => "StereoOnWithCDCommand"
  | CeilingFanCommand CeilingFanMediumCommand _ _ => "CeilingFanMediumCommand"
  | CeilingFanCommand CeilingFanHighCommand _ _ => "CeilingFanHighCommand"
  | CeilingFanCommand CeilingFanLowCommand _ _ => "CeilingFanLowCommand"
  | CeilingFanCommand CeilingFanOffCommand _ _ => "CeilingFanOffCommand"
  | MacroCommand _ => "MacroCommand"
  end.

(** [a[i].constructor.name]: a [TypeError] when [a[i]] is [undefined]. *)
Definition name_at (a : Array) (i : Z) (h : Heap) : result string :=
  match Array_get a i with
  | None => Throw TypeError
  | Some c =>
      match cmds h !! c with
      | Some x => Ok (constructor_name x)
      | None => Throw Dangling
      end
  end.

(** [`[slot ${i}] ${a}    ${b}\n`] *)
Definition slot_line (i : Z) (a b : string) : string :=
  "[slot " +:+ pretty i +:+ "] " +:+ a +:+ "    " +:+ b +:+ newline.

(** The loop of [toString], [count] iterations from index [i]:
    [stringBuff += `[slot ${i}] ${on[i].constructor.name}    ${off[i].constructor.name}\n`] *)
Fixpoint listing (count : nat) (i : Z) (on off : Array) (h : Heap)
    (stringBuff : string) : result string :=
  match count with
  | O => Ok stringBuff
  | S k =>
      a ← name_at on i h;
      b ← name_at off i h;
      listing k (i + 1) on off h (stringBuff +:+ slot_line i a b)
  end.

Definition listing_header : string :=
  newline +:+ "------ Remote Control -------" +:+ newline.

Definition RemoteControl_toString (rc : RemoteControl.t) (h : Heap)
  : result string :=
  listing (Z.to_nat (len (RemoteControl.onCommands rc))) 0
    (RemoteControl.onCommands rc) (RemoteControl.offCommands rc) h
    listing_header.

Definition RemoteLoaderWithUndo_toString (rc : RemoteLoaderWithUndo.t)
    (h : Heap) : result string :=
  listing (Z.to_nat (len (RemoteLoaderWithUndo.onCommands rc))) 0
    (RemoteLoaderWithUndo.onCommands rc) (RemoteLoaderWithUndo.offCommands rc)
    h listing_header.


(** Every slot below the length is bound, for on and for off. *)
Definition dense (on off : Array) : Prop :=
  ∀ j, 0 ≤ j < len on → is_Some (Array_get on j) ∧ is_Some (Array_get off j).

(** Every command a slot is bound to is in the heap. *)
Definition slots_in_heap (on off : Array) (h : Heap) : Prop :=
  ∀ j c, Array_get on j = Some c ∨ Array_get off j = Some c →
         (c < length (cmds h))%nat.

(** ** [RemoteLoader.main] *)

(** [console.log("Undoing..."); this.remoteControl.undoButtonWasPushed()] *)
Definition undoing (fuel : nat) (st : RemoteLoaderWithUndo.t * Heap)
  : result (RemoteLoaderWithUndo.t * Heap) :=
  RemoteLoaderWithUndo.undoButtonWasPushed fuel
    (st.1, console_log "Undoing..." st.2).

Definition RemoteLoader_main (fuel : nat)
  : result (RemoteLoaderWithUndo.t * Heap) :=
  '(rc, _, h) ← RemoteLoader_wiring;
  text ← RemoteLoaderWithUndo_toString rc h;
  st ← RemoteLoaderWithUndo.onButtonWasPushed fuel 0 (rc, console_log text h);
  st ← RemoteLoaderWithUndo.offButtonWasPushed fuel 0 st;
  st ← undoing fuel st;
  st ← RemoteLoaderWithUndo.onButtonWasPushed fuel 1 st;
  st ← undoing fuel st;
  st ← RemoteLoaderWithUndo.onButtonWasPushed fuel 2 st;
  undoing fuel st.

(** ** [FirstRemoteLoader.main] *)

Definition FirstRemoteLoader_main : result Heap :=
  let remoteControl := RemoteControl.new in
  let '(livingRoomLight, h1) := new_Light "Living Room" empty_heap in
  let '(kitchenLight, h2) := new_Light "Kitchen" h1 in
  let '(stereo, h3) := new_Stereo h2 in
  let '(livingRoomLightOff, h4) := new_LightOffCommand livingRoomLight h3 in
  let '(livingRoomLightOn, h5) := new_LightOffCommand livingRoomLight h4 in
  let '(stereoOnWithCD, h6) := new_StereoOnWithCDCommand stereo h5 in
  let '(stereoOff, h7) := new_StereoOnWithCDCommand stereo h6 in
  let '(kitchenLightOff, h8) := new_LightOffCommand kitchenLight h7 in
  let '(kitchenLightOn, h9) := new_LightOffCommand kitchenLight h8 in
  rc1 ← RemoteControl.setCommand 0 livingRoomLightOn livingRoomLightOff
          remoteControl;
  rc2 ← RemoteControl.setCommand 1 stereoOnWithCD stereoOff rc1;
  rc3 ← RemoteControl.setCommand 2 kitchenLightOn kitchenLightOff rc2;
  text ← RemoteControl_toString rc3 h9;
  mret (console_log text h9).

(** ** The fan writes of an [undo] *)

(** [this.speed = v] on the fan [f] of a fan table; nothing when there is no
    such fan. *)
Definition fan_write (l : list CeilingFan) (w : ref * Z) : list CeilingFan :=
  alter (λ o, {| location := location o; speed := w.2 |}) w.1 l.

Definition fan_writes (ws : list (ref * Z)) (l : list CeilingFan)
  : list CeilingFan :=
  foldl fan_write l ws.

(** ** What identifies the devices *)

(** The lights and stereos are the same, and every fan is still there under
    its location. *)
Definition keeps_identity (h h' : Heap) : Prop :=
  lights h' = lights h ∧ stereos h' = stereos h ∧
  Forall2 (λ o o', location o' = location o) (fans h) (fans h').

(** The call [u] returns on [g], does the fan writes [ws] there and changes
    no command, light or stereo. *)
Definition does (u : Heap → result Heap) (ws : list (ref * Z)) (g : Heap)
  : Prop :=
  ∃ g1, u g = Ok g1 ∧ fans g1 = fan_writes ws (fans g) ∧
        cmds g1 = cmds g ∧ lights g1 = lights g ∧ stereos g1 = stereos g.

(** Two heaps with the same commands, lights and stereos and as many fans. *)
Definition same_setting (h g : Heap) : Prop :=
  cmds g = cmds h ∧ lights g = lights h ∧ stereos g = stereos h ∧
  length (fans g) = length (fans h).

(** * Devices and single commands *)

Lemma fan_transition_set cls f h :
  fan_transition cls f h = CeilingFan_set f (fan_target cls) (fan_phrase cls) h.
Proof. by destruct cls. Qed.

Lemma fan_target_level cls : is_level (fan_target cls).
Proof. destruct cls; unfold is_level, fan_target; auto. Qed.

(** On a level, the [if / else if] chain of [undo] takes the branch of that
    level: it is the transition of one of the four classes. *)
Lemma CeilingFanCommand_undo_level f p h :
  is_level p →
  ∃ cls, fan_target cls = p ∧
         CeilingFanCommand_undo f p h = fan_transition cls f h.
Proof.
  intros [-> | [-> | [-> | ->]]].
  - by exists CeilingFanOffCommand.
  - by exists CeilingFanLowCommand.
  - by exists CeilingFanMediumCommand.
  - by exists CeilingFanHighCommand.
Qed.

Lemma CeilingFan_eta (o : CeilingFan) :
  {| location := location o; speed := speed o |} = o.
Proof. by destruct o. Qed.

Lemma execute_S n c h :
  execute (S n) c h =
  match cmds h !! c with
  | None => Throw Dangling
  | Some NoCommand => Ok h
  | Some (LightOffCommand l) => Light_off l h
  | Some (StereoOnWithCDCommand s) =>
      h1 ← Stereo_on s h; h2 ← Stereo_setCD s h1; Stereo_setVolume s 11 h2
  | Some (CeilingFanCommand cls f _) => CeilingFanCommand_execute c cls f h
  | Some (MacroCommand cs) => forEach (execute n) cs h
  end.
Proof. reflexivity. Qed.

Lemma undo_S n c h :
  undo (S n) c h =
  match cmds h !! c with
  | None => Throw Dangling
  | Some NoCommand => Ok h
  | Some (LightOffCommand l) => Light_on l h
  | Some (StereoOnWithCDCommand s) => Stereo_off s h
  | Some (CeilingFanCommand _ f prev) => CeilingFanCommand_undo f prev h
  | Some (MacroCommand cs) => forEach (undo n) cs h
  end.
Proof. reflexivity. Qed.

Section fan_command.
Variables (h : Heap) (c f : ref) (cls : FanCommandClass) (p : Z)
          (o : CeilingFan).
Hypothesis Hc : cmds h !! c = Some (CeilingFanCommand cls f p).
Hypothesis Hf : fans h !! f = Some o.

Lemma execute_fan n : execute (S n) c h = Ok (after_execute h c f cls o).
Proof using Hc Hf.
  rewrite execute_S, Hc. unfold CeilingFanCommand_execute, CeilingFan_getSpeed.
  rewrite Hf. simpl. rewrite fan_transition_set. unfold CeilingFan_set.
  simpl. by rewrite Hf.
Qed.

Lemma after_execute_cmd :
  cmds (after_execute h c f cls o) !! c = Some (CeilingFanCommand cls f (speed o)).
Proof using Hc.
  simpl. apply list_lookup_insert_eq. by eapply lookup_lt_Some.
Qed.

Lemma after_execute_fan :
  fans (after_execute h c f cls o) !! f
  = Some {| location := location o; speed := fan_target cls |}.
Proof using Hf.
  simpl. apply list_lookup_insert_eq. by eapply lookup_lt_Some.
Qed.

(** [undo] after [execute] writes the fan's earlier record back. *)
Lemma undo_after_execute n :
  is_level (speed o) →
  ∃ h2, undo (S n) c (after_execute h c f cls o) = Ok h2 ∧
        fans h2 = fans h ∧
        cmds h2 = cmds (after_execute h c f cls o) ∧
        lights h2 = lights h ∧ stereos h2 = stereos h.
Proof using Hc Hf.
  intros Hl. rewrite undo_S, after_execute_cmd.
  destruct (CeilingFanCommand_undo_level f (speed o)
              (after_execute h c f cls o) Hl)
    as (k & Hk & ->).
  rewrite fan_transition_set. unfold CeilingFan_set.
  rewrite after_execute_fan. eexists. split; [reflexivity |].
  simpl. rewrite list_insert_insert_eq, Hk, CeilingFan_eta.
  by rewrite list_insert_id.
Qed.
End fan_command.

(** C1. Snapshot-restore round trip: for a ceiling fan whose speed is one of
    OFF, LOW, MEDIUM, HIGH and a command of any of the four fan command
    classes bound to it, [execute] succeeds, the [undo] that follows
    succeeds, and the fan then has exactly the speed (and the whole record)
    it had before [execute]; no other fan changed either. *)
Theorem fan_execute_undo_round_trip
    (n : nat) (h : Heap) (c f : ref) (cls : FanCommandClass) (p : Z)
    (o : CeilingFan) :
  cmds h !! c = Some (CeilingFanCommand cls f p) →
  fans h !! f = Some o →
  is_level (speed o) →
  ∃ h1 h2,
    execute (S n) c h = Ok h1 ∧
    undo (S n) c h1 = Ok h2 ∧
    CeilingFan_getSpeed f h1 = Ok (fan_target cls) ∧
    CeilingFan_getSpeed f h2 = Ok (speed o) ∧
    fans h2 = fans h.
Proof.
  intros Hc Hf Hl.
  destruct (undo_after_execute h c f cls p o Hc Hf n Hl) as (h2 & Hu & Hfans & _).
  exists (after_execute h c f cls o), h2.
  split; [by eapply execute_fan |]. split; [exact Hu |].
  unfold CeilingFan_getSpeed.
  rewrite (after_execute_fan h c f cls o Hf), Hfans, Hf. auto.
Qed.

Lemma wired_heap_high_fan :
  fans wired_heap_high !! 0%nat = Some {| location := "Living Room"; speed := HIGH |}.
Proof. reflexivity. Qed.

Lemma fan_execute_undo_round_trip_witness :
  ∃ h1 h2,
    execute 1 17%nat wired_heap_high = Ok h1 ∧
    undo 1 17%nat h1 = Ok h2 ∧
    CeilingFan_getSpeed 0%nat h1 = Ok LOW ∧
    CeilingFan_getSpeed 0%nat h2 = Ok HIGH ∧
    fans h2 = fans wired_heap_high.
Proof.
  apply (fan_execute_undo_round_trip 0%nat wired_heap_high 17%nat 0%nat
           CeilingFanLowCommand OFF
           {| location := "Living Room"; speed := HIGH |}).
  - reflexivity.
  - reflexivity.
  - right; right; right; reflexivity.
Defined.

(** C4. Snapshot at [execute]: whatever snapshot [p] a fan command holds
    from its construction (or from an earlier [execute]), [execute] succeeds
    and overwrites it with the speed the fan has at that moment, before the
    transition; and the [undo] that follows brings the fan back to that
    speed, not to [p]. *)
Theorem snapshot_taken_at_execute
    (n : nat) (h : Heap) (c f : ref) (cls : FanCommandClass) (p : Z)
    (o : CeilingFan) :
  cmds h !! c = Some (CeilingFanCommand cls f p) →
  fans h !! f = Some o →
  ∃ h1,
    execute (S n) c h = Ok h1 ∧
    cmds h1 !! c = Some (CeilingFanCommand cls f (speed o)) ∧
    (is_level (speed o) →
     ∃ h2, undo (S n) c h1 = Ok h2 ∧
           CeilingFan_getSpeed f h2 = Ok (speed o) ∧
           cmds h2 !! c = Some (CeilingFanCommand cls f (speed o))).
Proof.
  intros Hc Hf. exists (after_execute h c f cls o).
  split; [by eapply execute_fan |].
  split; [by eapply after_execute_cmd |].
  intros Hl.
  destruct (undo_after_execute h c f cls p o Hc Hf n Hl)
    as (h2 & Hu & Hfans & Hcmds & _).
  exists h2. split; [exact Hu |].
  unfold CeilingFan_getSpeed. rewrite Hfans, Hf, Hcmds.
  split; [reflexivity | by eapply after_execute_cmd].
Qed.

Lemma snapshot_taken_at_execute_witness :
  cmds wired_heap_high !! 15%nat
    = Some (CeilingFanCommand CeilingFanMediumCommand 0%nat OFF) ∧
  ∃ h1 h2,
    execute 1 15%nat wired_heap_high = Ok h1 ∧
    cmds h1 !! 15%nat = Some (CeilingFanCommand CeilingFanMediumCommand 0%nat HIGH) ∧
    undo 1 15%nat h1 = Ok h2 ∧
    CeilingFan_getSpeed 0%nat h2 = Ok HIGH.
Proof.
  split; [reflexivity |].
  destruct (snapshot_taken_at_execute 0%nat wired_heap_high 15%nat 0%nat
              CeilingFanMediumCommand OFF
              {| location := "Living Room"; speed := HIGH |}
              eq_refl eq_refl) as (h1 & He & Hc & Hu).
  destruct Hu as (h2 & Hu & Hs & _).
  - right; right; right; reflexivity.
  - exists h1, h2. auto.
Defined.

(** * The invoker with undo *)

Import RemoteLoaderWithUndo.

Lemma bind_Ok {A B} (m : result A) (f : A → result B) (b : B) :
  m ≫= f = Ok b → ∃ a, m = Ok a ∧ f a = Ok b.
Proof. destruct m as [a | e]; [by exists a | discriminate]. Qed.

Lemma set_undoCommand_twice c c' rc :
  set_undoCommand c (set_undoCommand c' rc) = set_undoCommand c rc.
Proof. reflexivity. Qed.

(** C3. Last-executed overwrite: a push of an on or off button executes the
    command bound to the slot and then makes it the undo target; hence
    pushing on-button 0, then on-button 1, then undo, is: execute the command
    of slot 0, execute the command of slot 1, undo the command of slot 1,
    and the undo target is the command of slot 1. *)
Theorem last_executed_overwrite
    (n : nat) (rc : RemoteLoaderWithUndo.t) (h : Heap) (c0 c1 : ref) :
  Array_get (onCommands rc) 0 = Some c0 →
  Array_get (onCommands rc) 1 = Some c1 →
  (∀ slot c, Array_get (onCommands rc) slot = Some c →
     onButtonWasPushed n slot (rc, h)
     = h' ← execute n c h; mret (set_undoCommand c rc, h')) ∧
  (∀ slot c, Array_get (offCommands rc) slot = Some c →
     offButtonWasPushed n slot (rc, h)
     = h' ← execute n c h; mret (set_undoCommand c rc, h')) ∧
  (st1 ← onButtonWasPushed n 0 (rc, h);
   st2 ← onButtonWasPushed n 1 st1;
   undoButtonWasPushed n st2)
  = (h1 ← execute n c0 h;
     h2 ← execute n c1 h1;
     h3 ← undo n c1 h2;
     mret (set_undoCommand c1 rc, h3)).
Proof.
  intros H0 H1. split; [| split].
  - intros slot c Hs. unfold onButtonWasPushed. simpl. by rewrite Hs.
  - intros slot c Hs. unfold offButtonWasPushed. simpl. by rewrite Hs.
  - unfold onButtonWasPushed at 2. simpl. rewrite H0.
    destruct (execute n c0 h) as [h1 | e]; [| reflexivity]. simpl.
    unfold onButtonWasPushed. simpl. rewrite H1.
    destruct (execute n c1 h1) as [h2 | e]; [| reflexivity]. simpl.
    unfold undoButtonWasPushed. simpl.
    by destruct (undo n c1 h2).
Qed.

(** On the wired remote with the fan on high: medium, then high, then undo
    leaves the fan on medium, the speed before slot 1's command; undoing
    slot 0's command would have put it on high. *)
Lemma last_executed_overwrite_witness :
  (st1 ← onButtonWasPushed 1 0 (wired_remote, wired_heap_high);
   st2 ← onButtonWasPushed 1 1 st1;
   undoButtonWasPushed 1 st2)
  = (h1 ← execute 1 15%nat wired_heap_high;
     h2 ← execute 1 16%nat h1;
     h3 ← undo 1 16%nat h2;
     mret (set_undoCommand 16%nat wired_remote, h3)).
Proof.
  apply (last_executed_overwrite 1%nat wired_remote wired_heap_high
           15%nat 16%nat); reflexivity.
Defined.

(** C9. No undo of undo: a push of the undo button that returns leaves the
    remote (its slot tables and its undo target) as it was, and two pushes
    in a row call [undo] of the same command twice. *)
Theorem undo_keeps_remote (n : nat) (rc : RemoteLoaderWithUndo.t) (h : Heap) :
  (∀ st', undoButtonWasPushed n (rc, h) = Ok st' → st'.1 = rc) ∧
  undoButtonWasPushed n (rc, h)
  = (h1 ← undo n (undoCommand rc) h; mret (rc, h1)) ∧
  (st1 ← undoButtonWasPushed n (rc, h); undoButtonWasPushed n st1)
  = (h1 ← undo n (undoCommand rc) h;
     h2 ← undo n (undoCommand rc) h1;
     mret (rc, h2)).
Proof.
  unfold undoButtonWasPushed. simpl. split; [| split].
  - intros st' H. apply bind_Ok in H as (h1 & _ & H).
    by injection H as <-.
  - reflexivity.
  - destruct (undo n (undoCommand rc) h) as [h1 | e]; reflexivity.
Qed.

Lemma undo_keeps_remote_witness :
  (st1 ← undoButtonWasPushed 1 (set_undoCommand 17%nat wired_remote, wired_heap_high);
   undoButtonWasPushed 1 st1)
  = (h1 ← undo 1 17%nat wired_heap_high;
     h2 ← undo 1 17%nat h1;
     mret (set_undoCommand 17%nat wired_remote, h2)).
Proof.
  exact (proj2 (proj2 (undo_keeps_remote 1%nat
                         (set_undoCommand 17%nat wired_remote)
                         wired_heap_high))).
Defined.

(** ** The constructor *)

Lemma lookup_replicate_NoCommand (l : list Command) (k c : nat) :
  (length l ≤ c < length l + k)%nat →
  (l ++ replicate k NoCommand) !! c = Some NoCommand.
Proof.
  intros Hc. rewrite lookup_app_r by lia.
  apply lookup_replicate_2. lia.
Qed.

(** The loop allocates two fresh [NoCommand] objects per slot, binds the
    slots [i .. i + count - 1] to them and touches nothing else. *)
Lemma fill_spec (count : nat) :
  ∀ (i : Z) (on off : Array) (h : Heap),
    let r := fill count i on off h in
    cmds r.2 = cmds h ++ replicate (2 * count) NoCommand ∧
    devices r.2 = devices h ∧
    console r.2 = console h ∧
    (∀ j, ¬ (i ≤ j < i + Z.of_nat count) →
          Array_get r.1.1 j = Array_get on j ∧
          Array_get r.1.2 j = Array_get off j) ∧
    (∀ j, i ≤ j < i + Z.of_nat count →
          ∃ c1 c2,
            Array_get r.1.1 j = Some c1 ∧ Array_get r.1.2 j = Some c2 ∧
            (length (cmds h) ≤ c1 < length (cmds h) + 2 * count)%nat ∧
            (length (cmds h) ≤ c2 < length (cmds h) + 2 * count)%nat).
Proof.
  induction count as [| k IH]; intros i on off h.
  - simpl. rewrite app_nil_r. repeat split; auto. intros j Hj. lia.
  - cbn [fill new_NoCommand alloc_Command].
    set (h2 := set_cmds (cmds (set_cmds (cmds h ++ [NoCommand]) h) ++ [NoCommand])
                 (set_cmds (cmds h ++ [NoCommand]) h)).
    set (on1 := Array_set on i (length (cmds h))).
    set (off1 := Array_set off i (length (cmds (set_cmds (cmds h ++ [NoCommand]) h)))).
    specialize (IH (i + 1) on1 off1 h2).
    cbv zeta in IH. destruct IH as (Hcmds & Hdev & Hcon & Hout & Hin).
    assert (Hlen2 : length (cmds h2) = S (S (length (cmds h)))).
    { subst h2. simpl. rewrite !length_app. simpl. lia. }
    cbv zeta. split; [| split; [| split; [| split]]].
    + rewrite Hcmds. subst h2. simpl. rewrite <- !app_assoc. simpl.
      do 2 f_equal. replace (k + S (k + 0))%nat with (S (k + (k + 0)))%nat by lia.
      reflexivity.
    + rewrite Hdev. reflexivity.
    + rewrite Hcon. reflexivity.
    + intros j Hj. destruct (Hout j) as [H1 H2]; [lia |].
      rewrite H1, H2. subst on1 off1. unfold Array_get, Array_set. simpl.
      rewrite !lookup_insert_ne by lia. auto.
    + intros j Hj. destruct (decide (j = i)) as [-> | Hne].
      * destruct (Hout i) as [H1 H2]; [lia |].
        rewrite H1, H2. subst on1 off1. unfold Array_get, Array_set. simpl.
        rewrite !lookup_insert_eq. do 2 eexists.
        split; [reflexivity |]. split; [reflexivity |].
        rewrite length_app. simpl. lia.
      * destruct (Hin j) as (c1 & c2 & H1 & H2 & Hc1 & Hc2); [lia |].
        exists c1, c2. rewrite Hlen2 in Hc1, Hc2.
        repeat split; auto; lia.
Qed.

(** What the constructor builds. *)
Lemma new_spec (h : Heap) :
  let st := RemoteLoaderWithUndo.new h in
  devices st.2 = devices h ∧
  console st.2 = console h ∧
  cmds st.2 !! undoCommand st.1 = Some NoCommand ∧
  len (onCommands st.1) = capacity ∧
  len (offCommands st.1) = capacity ∧
  ∀ s, 0 ≤ s < capacity →
    ∃ c_on c_off,
      Array_get (onCommands st.1) s = Some c_on ∧
      Array_get (offCommands st.1) s = Some c_off ∧
      cmds st.2 !! c_on = Some NoCommand ∧
      cmds st.2 !! c_off = Some NoCommand.
Proof.
  cbv zeta. unfold RemoteLoaderWithUndo.new.
  pose proof (fill_spec (Z.to_nat capacity) 0 Array_empty Array_empty h) as Hf.
  cbv zeta in Hf.
  assert (Hlen : len (fill (Z.to_nat capacity) 0 Array_empty Array_empty h).1.1
                 = capacity ∧
                 len (fill (Z.to_nat capacity) 0 Array_empty Array_empty h).1.2
                 = capacity) by (split; reflexivity).
  destruct (fill (Z.to_nat capacity) 0 Array_empty Array_empty h)
    as [[on off] h1] eqn:E.
  simpl in Hf, Hlen. destruct Hf as (Hcmds & Hdev & Hcon & _ & Hin).
  cbn [new_NoCommand alloc_Command]. simpl.
  split; [exact Hdev |]. split; [exact Hcon |].
  split; [apply list_lookup_middle; reflexivity |].
  split; [apply Hlen |]. split; [apply Hlen |].
  intros s Hs. destruct (Hin s) as (c1 & c2 & H1 & H2 & Hc1 & Hc2).
  { unfold capacity in *. lia. }
  exists c1, c2. split; [exact H1 |]. split; [exact H2 |].
  rewrite Hcmds.
  split; apply lookup_app_l_Some, (lookup_replicate_NoCommand (cmds h) 14);
    lia.
Qed.

(** C7. Default-slot safety: on a freshly constructed remote every slot [s]
    with [0 <= s < capacity] holds a [NoCommand] for on and for off; a push
    of either button returns without an error and leaves the heap as it was
    (no device changed, nothing reported); only the undo target now names
    that [NoCommand]. *)
Theorem default_slot_safe (n : nat) (h : Heap) (s : Z) :
  0 ≤ s < capacity →
  ∃ c_on c_off,
    Array_get (onCommands (RemoteLoaderWithUndo.new h).1) s = Some c_on ∧
    Array_get (offCommands (RemoteLoaderWithUndo.new h).1) s = Some c_off ∧
    cmds (RemoteLoaderWithUndo.new h).2 !! c_on = Some NoCommand ∧
    cmds (RemoteLoaderWithUndo.new h).2 !! c_off = Some NoCommand ∧
    onButtonWasPushed (S n) s (RemoteLoaderWithUndo.new h)
    = Ok (set_undoCommand c_on (RemoteLoaderWithUndo.new h).1,
          (RemoteLoaderWithUndo.new h).2) ∧
    offButtonWasPushed (S n) s (RemoteLoaderWithUndo.new h)
    = Ok (set_undoCommand c_off (RemoteLoaderWithUndo.new h).1,
          (RemoteLoaderWithUndo.new h).2) ∧
    devices (RemoteLoaderWithUndo.new h).2 = devices h ∧
    console (RemoteLoaderWithUndo.new h).2 = console h.
Proof.
  intros Hs. pose proof (new_spec h) as Hn. cbv zeta in Hn.
  destruct Hn as (Hdev & Hcon & _ & _ & _ & Hslots).
  destruct (Hslots s Hs) as (c1 & c2 & H1 & H2 & Hc1 & Hc2).
  exists c1, c2. repeat split; auto.
  - unfold onButtonWasPushed. rewrite H1, execute_S, Hc1. reflexivity.
  - unfold offButtonWasPushed. rewrite H2, execute_S, Hc2. reflexivity.
Qed.

Lemma default_slot_safe_witness :
  ∃ c_on c_off,
    Array_get (onCommands (RemoteLoaderWithUndo.new empty_heap).1) 3 = Some c_on ∧
    Array_get (offCommands (RemoteLoaderWithUndo.new empty_heap).1) 3 = Some c_off ∧
    cmds (RemoteLoaderWithUndo.new empty_heap).2 !! c_on = Some NoCommand ∧
    cmds (RemoteLoaderWithUndo.new empty_heap).2 !! c_off = Some NoCommand ∧
    onButtonWasPushed 1 3 (RemoteLoaderWithUndo.new empty_heap)
    = Ok (set_undoCommand c_on (RemoteLoaderWithUndo.new empty_heap).1,
          (RemoteLoaderWithUndo.new empty_heap).2) ∧
    offButtonWasPushed 1 3 (RemoteLoaderWithUndo.new empty_heap)
    = Ok (set_undoCommand c_off (RemoteLoaderWithUndo.new empty_heap).1,
          (RemoteLoaderWithUndo.new empty_heap).2) ∧
    devices (RemoteLoaderWithUndo.new empty_heap).2 = devices empty_heap ∧
    console (RemoteLoaderWithUndo.new empty_heap).2 = console empty_heap.
Proof.
  apply (default_slot_safe 0%nat empty_heap 3). unfold capacity. lia.
Defined.

(** * Calls as sequences of primitive effects *)

Lemma console_log_prim line h : rtc prim h (console_log line h).
Proof. apply rtc_once, prim_log. Qed.

Lemma Light_on_prim l h h' : Light_on l h = Ok h' → rtc prim h h'.
Proof.
  unfold Light_on. destruct (lights h !! l); [| discriminate].
  intros [= <-]. apply console_log_prim.
Qed.

Lemma Light_off_prim l h h' : Light_off l h = Ok h' → rtc prim h h'.
Proof.
  unfold Light_off. destruct (lights h !! l); [| discriminate].
  intros [= <-]. apply console_log_prim.
Qed.

Lemma Stereo_on_prim s h h' : Stereo_on s h = Ok h' → rtc prim h h'.
Proof.
  unfold Stereo_on. destruct (stereos h !! s); [| discriminate].
  intros [= <-]. apply console_log_prim.
Qed.

Lemma Stereo_off_prim s h h' : Stereo_off s h = Ok h' → rtc prim h h'.
Proof.
  unfold Stereo_off. destruct (stereos h !! s); [| discriminate].
  intros [= <-]. apply console_log_prim.
Qed.

Lemma Stereo_setCD_prim s h h' : Stereo_setCD s h = Ok h' → rtc prim h h'.
Proof.
  unfold Stereo_setCD. destruct (stereos h !! s); [| discriminate].
  intros [= <-]. apply console_log_prim.
Qed.

Lemma Stereo_setVolume_prim s v h h' :
  Stereo_setVolume s v h = Ok h' → rtc prim h h'.
Proof.
  unfold Stereo_setVolume. destruct (stereos h !! s); [| discriminate].
  intros [= <-]. apply console_log_prim.
Qed.

Lemma CeilingFan_set_prim f v what h h' :
  is_level v → CeilingFan_set f v what h = Ok h' → rtc prim h h'.
Proof.
  intros Hv. unfold CeilingFan_set. destruct (fans h !! f) as [o |] eqn:Hf;
    [| discriminate].
  intros [= <-]. eapply rtc_l; [by eapply (prim_fan f o v) |].
  apply console_log_prim.
Qed.

Lemma fan_transition_prim cls f h h' :
  fan_transition cls f h = Ok h' → rtc prim h h'.
Proof.
  rewrite fan_transition_set. apply CeilingFan_set_prim, fan_target_level.
Qed.

Lemma CeilingFanCommand_undo_prim f p h h' :
  CeilingFanCommand_undo f p h = Ok h' → rtc prim h h'.
Proof.
  unfold CeilingFanCommand_undo.
  repeat case_match;
    try (apply (fan_transition_prim CeilingFanHighCommand));
    try (apply (fan_transition_prim CeilingFanMediumCommand));
    try (apply (fan_transition_prim CeilingFanLowCommand));
    try (apply (fan_transition_prim CeilingFanOffCommand)).
  by intros [= <-].
Qed.

Lemma forEach_prim (g : ref → Heap → result Heap) :
  (∀ c h h', g c h = Ok h' → rtc prim h h') →
  ∀ cs h h', forEach g cs h = Ok h' → rtc prim h h'.
Proof.
  intros Hg. induction cs as [| c cs IH]; intros h h' H; simpl in H.
  - by injection H as <-.
  - apply bind_Ok in H as (h1 & H1 & H2).
    etrans; [by eapply Hg | by eapply IH].
Qed.

Lemma execute_prim n : ∀ c h h', execute n c h = Ok h' → rtc prim h h'.
Proof.
  induction n as [| n IH]; intros c h h' H; [discriminate |].
  rewrite execute_S in H.
  destruct (cmds h !! c) as [[| l | s | cls f p | cs] |] eqn:Hc;
    try discriminate.
  - by injection H as <-.
  - by eapply Light_off_prim.
  - apply bind_Ok in H as (h1 & H1 & H). apply bind_Ok in H as (h2 & H2 & H3).
    etrans; [by eapply Stereo_on_prim |].
    etrans; [by eapply Stereo_setCD_prim | by eapply Stereo_setVolume_prim].
  - unfold CeilingFanCommand_execute, CeilingFan_getSpeed in H.
    destruct (fans h !! f) as [o |] eqn:Hf; [| discriminate]. simpl in H.
    eapply rtc_l; [by eapply (prim_snapshot c cls f p o) |].
    by eapply fan_transition_prim.
  - by eapply forEach_prim.
Qed.

Lemma undo_prim n : ∀ c h h', undo n c h = Ok h' → rtc prim h h'.
Proof.
  induction n as [| n IH]; intros c h h' H; [discriminate |].
  rewrite undo_S in H.
  destruct (cmds h !! c) as [[| l | s | cls f p | cs] |] eqn:Hc;
    try discriminate.
  - by injection H as <-.
  - by eapply Light_on_prim.
  - by eapply Stereo_off_prim.
  - by eapply CeilingFanCommand_undo_prim.
  - by eapply forEach_prim.
Qed.

(** ** What the primitive effects keep *)

Lemma same_shape_refl c : same_shape c c.
Proof. destruct c; simpl; auto. Qed.

Lemma same_shape_trans c1 c2 c3 :
  same_shape c1 c2 → same_shape c2 c3 → same_shape c1 c3.
Proof. destruct c1, c2, c3; simpl; intuition congruence. Qed.

Lemma same_shape_diag (l : list Command) : Forall2 same_shape l l.
Proof.
  apply Forall_Forall2_diag, Forall_forall. intros; apply same_shape_refl.
Qed.

Lemma frame_refl h : frame h h.
Proof. repeat split. apply same_shape_diag. Qed.

Lemma frame_trans h1 h2 h3 : frame h1 h2 → frame h2 h3 → frame h1 h3.
Proof.
  intros (Hl & Hs & Hf & Hc) (Hl' & Hs' & Hf' & Hc').
  repeat split; try congruence.
  eapply Forall2_trans; [| exact Hc | exact Hc'].
  apply same_shape_trans.
Qed.

Lemma prim_frame h h' : prim h h' → frame h h'.
Proof.
  destruct 1 as [line h | f o v h Hf Hv | c cls f p o h Hc Hf].
  - repeat split; simpl. apply same_shape_diag.
  - repeat split; simpl.
    + apply length_insert.
    + apply same_shape_diag.
  - repeat split; simpl.
    rewrite <- (list_insert_id (cmds h) c _ Hc) at 1.
    apply Forall2_insert; [apply same_shape_diag | by simpl].
Qed.

Lemma rtc_prim_frame h h' : rtc prim h h' → frame h h'.
Proof.
  induction 1 as [h | h1 h2 h3 H12 _ IH]; [apply frame_refl |].
  eapply frame_trans; [by apply prim_frame | exact IH].
Qed.

Lemma frame_lookup h h' c x :
  frame h h' → cmds h !! c = Some x →
  ∃ x', cmds h' !! c = Some x' ∧ same_shape x x'.
Proof. intros (_ & _ & _ & Hc) Hx. by eapply Forall2_lookup_l. Qed.

Lemma frame_NoCommand h h' c :
  frame h h' → cmds h !! c = Some NoCommand → cmds h' !! c = Some NoCommand.
Proof.
  intros Hfr Hc. destruct (frame_lookup h h' c _ Hfr Hc) as (x' & Hx & Hs).
  by destruct x'.
Qed.

Lemma prim_closed_speed h h' : prim h h' → closed_speed h → closed_speed h'.
Proof.
  intros Hp [Hfans Hcmds].
  destruct Hp as [line h | f o v h Hf Hv | c cls f p o h Hc Hf]; split; simpl;
    try assumption.
  - intros f' o' H. apply list_lookup_insert_Some in H as [(-> & <- & _) | [_ H]].
    + exact Hv.
    + by eapply Hfans.
  - intros c' cls' f' p' H.
    apply list_lookup_insert_Some in H as [(-> & H & _) | [_ H]].
    + injection H as <- <- <-. by eapply Hfans.
    + by eapply Hcmds.
Qed.

Lemma rtc_prim_closed_speed h h' :
  rtc prim h h' → closed_speed h → closed_speed h'.
Proof. induction 1; eauto using prim_closed_speed. Qed.

(** A fresh command whose snapshot, if it has one, is a level. *)
Lemma alloc_Command_closed_speed x h :
  (∀ cls f p, x = CeilingFanCommand cls f p → is_level p) →
  closed_speed h → closed_speed (alloc_Command x h).2.
Proof.
  intros Hx [Hfans Hcmds]. split; simpl; [assumption |].
  intros c cls f p H. apply lookup_snoc_Some in H as [[_ H] | [_ H]].
  - by eapply Hcmds.
  - by eapply Hx.
Qed.

Lemma perform_closed_speed a h h' :
  perform a h = Ok h' → closed_speed h → closed_speed h'.
Proof.
  intros H Hinv.
  destruct a; simpl in H;
    try (injection H as <-);
    try (case_decide; [injection H as <- | discriminate]);
    try (apply alloc_Command_closed_speed; [discriminate | assumption]);
    try (by destruct Hinv).
  - (* new CeilingFan *)
    destruct Hinv as [Hfans Hcmds]. split; simpl; [| assumption].
    intros f o H. apply lookup_snoc_Some in H as [[_ H] | [_ <-]].
    + by eapply Hfans.
    + by left.
  - (* new fan command *)
    apply bind_Ok in H as ([c h1] & H1 & H). injection H as <-.
    unfold new_CeilingFanCommand, CeilingFan_getSpeed in H1.
    destruct (fans h !! ceilingFan) as [o |] eqn:Hf; [| discriminate].
    simpl in H1. injection H1 as _ <-.
    apply alloc_Command_closed_speed; [| assumption].
    intros ? ? ? [= _ _ <-]. destruct Hinv as [Hfans _]. by eapply Hfans.
  - eapply rtc_prim_closed_speed; [by eapply Light_on_prim | done].
  - eapply rtc_prim_closed_speed; [by eapply Light_off_prim | done].
  - eapply rtc_prim_closed_speed; [by eapply Stereo_on_prim | done].
  - eapply rtc_prim_closed_speed; [by eapply Stereo_off_prim | done].
  - eapply rtc_prim_closed_speed; [by eapply Stereo_setCD_prim | done].
  - eapply rtc_prim_closed_speed; [by eapply Stereo_setVolume_prim | done].
  - eapply rtc_prim_closed_speed;
      [by eapply (fan_transition_prim CeilingFanHighCommand) | done].
  - eapply rtc_prim_closed_speed;
      [by eapply (fan_transition_prim CeilingFanMediumCommand) | done].
  - eapply rtc_prim_closed_speed;
      [by eapply (fan_transition_prim CeilingFanLowCommand) | done].
  - eapply rtc_prim_closed_speed;
      [by eapply (fan_transition_prim CeilingFanOffCommand) | done].
  - eapply rtc_prim_closed_speed; [by eapply execute_prim | done].
  - eapply rtc_prim_closed_speed; [by eapply undo_prim | done].
Qed.

Lemma empty_heap_closed_speed : closed_speed empty_heap.
Proof. split; simpl; intros *; by rewrite lookup_nil. Qed.

Lemma reachable_closed_speed h : reachable h → closed_speed h.
Proof.
  induction 1 as [| a h h' _ IH Hp];
    [apply empty_heap_closed_speed | by eapply perform_closed_speed].
Qed.

(** A call on a device or a command is a sequence of primitive effects;
    a constructor only adds an object. *)
Lemma perform_prim_or_new a h h' :
  perform a h = Ok h' →
  rtc prim h h' ∨
  ((cmds h' = cmds h ∨ ∃ x, cmds h' = cmds h ++ [x]) ∧
   (lights h' = lights h ∨ ∃ o, lights h' = lights h ++ [o]) ∧
   (stereos h' = stereos h ∨ ∃ o, stereos h' = stereos h ++ [o]) ∧
   (fans h' = fans h ∨ ∃ o, fans h' = fans h ++ [o])).
Proof.
  intros H.
  destruct a; simpl in H;
    try (injection H as <-; right; simpl; by eauto 10);
    try (case_decide; [injection H as <- | discriminate];
         right; simpl; by eauto 10).
  - apply bind_Ok in H as ([c h1] & H1 & H). injection H as <-.
    apply bind_Ok in H1 as (v & _ & H1). injection H1 as _ <-.
    right; simpl; eauto 10.
  - left. by eapply Light_on_prim.
  - left. by eapply Light_off_prim.
  - left. by eapply Stereo_on_prim.
  - left. by eapply Stereo_off_prim.
  - left. by eapply Stereo_setCD_prim.
  - left. by eapply Stereo_setVolume_prim.
  - left. by eapply (fan_transition_prim CeilingFanHighCommand).
  - left. by eapply (fan_transition_prim CeilingFanMediumCommand).
  - left. by eapply (fan_transition_prim CeilingFanLowCommand).
  - left. by eapply (fan_transition_prim CeilingFanOffCommand).
  - left. by eapply execute_prim.
  - left. by eapply undo_prim.
Qed.

Lemma perform_NoCommand a h h' c :
  perform a h = Ok h' →
  cmds h !! c = Some NoCommand → cmds h' !! c = Some NoCommand.
Proof.
  intros H Hc. apply perform_prim_or_new in H as [H | ([-> | [x ->]] & _)].
  - eapply frame_NoCommand; [by apply rtc_prim_frame | done].
  - done.
  - by apply lookup_app_l_Some.
Qed.

(** ** Undo before any push *)

Lemma untriggered_NoCommand st :
  untriggered st → cmds st.2 !! undoCommand st.1 = Some NoCommand.
Proof.
  induction 1 as [h | rc h slot on off rc' _ IH Hset | rc h a h' _ IH Hp
                 | [rc h] fuel st' _ IH Hu].
  - pose proof (new_spec h) as Hn. cbv zeta in Hn. apply Hn.
  - injection Hset as <-. exact IH.
  - simpl in *. by eapply perform_NoCommand.
  - unfold undoButtonWasPushed in Hu. simpl in *.
    apply bind_Ok in Hu as (h1 & Hu & [= <-]). simpl.
    eapply frame_NoCommand; [| exact IH].
    by eapply rtc_prim_frame, undo_prim.
Qed.

(** C8. Undo before any trigger: on a remote on which no on or off button
    was ever pushed (whatever was bound to its slots and whatever else
    happened in the heap since its construction), a push of the undo button
    returns without an error and leaves the remote and the whole heap
    (devices, commands, console) exactly as they were: the undo target is
    still the constructor's [NoCommand]. *)
Theorem undo_before_any_push (n : nat) (st : RemoteLoaderWithUndo.t * Heap) :
  untriggered st →
  cmds st.2 !! undoCommand st.1 = Some NoCommand ∧
  undoButtonWasPushed (S n) st = Ok st.
Proof.
  intros Hu. pose proof (untriggered_NoCommand st Hu) as Hc.
  split; [exact Hc |].
  unfold undoButtonWasPushed. rewrite undo_S, Hc. by destruct st.
Qed.

(** A fresh remote whose slot 0 was rebound, with no button pushed. *)
Lemma undo_before_any_push_witness :
  undoButtonWasPushed 1
    ({| onCommands := Array_set (onCommands (RemoteLoaderWithUndo.new empty_heap).1) 0 1%nat;
        offCommands := Array_set (offCommands (RemoteLoaderWithUndo.new empty_heap).1) 0 2%nat;
        undoCommand := undoCommand (RemoteLoaderWithUndo.new empty_heap).1 |},
     (RemoteLoaderWithUndo.new empty_heap).2)
  = Ok ({| onCommands := Array_set (onCommands (RemoteLoaderWithUndo.new empty_heap).1) 0 1%nat;
           offCommands := Array_set (offCommands (RemoteLoaderWithUndo.new empty_heap).1) 0 2%nat;
           undoCommand := undoCommand (RemoteLoaderWithUndo.new empty_heap).1 |},
        (RemoteLoaderWithUndo.new empty_heap).2).
Proof.
  refine (proj2 (undo_before_any_push 0%nat _ _)).
  apply (untriggered_setCommand
           (RemoteLoaderWithUndo.new empty_heap).1
           (RemoteLoaderWithUndo.new empty_heap).2 0 1%nat 2%nat).
  - exact (untriggered_new empty_heap).
  - reflexivity.
Defined.

(** * Valid references and termination *)

Lemma valid_command_frame h h' c x x' :
  frame h h' → same_shape x x' → valid_command h c x → valid_command h' c x'.
Proof.
  intros (Hl & Hs & Hf & _) Hsh Hv.
  destruct x, x'; simpl in *; try done.
  - by rewrite Hl, <- Hsh.
  - by rewrite Hs, <- Hsh.
  - destruct Hsh as [_ <-]. by rewrite Hf.
  - by rewrite <- Hsh.
Qed.

Lemma frame_valid_refs h h' : frame h h' → valid_refs h → valid_refs h'.
Proof.
  intros Hfr Hv c x' Hc.
  pose proof Hfr as (_ & _ & _ & H2).
  destruct (Forall2_lookup_r _ _ _ _ _ H2 Hc) as (x & Hx & Hsh).
  eapply valid_command_frame; [exact Hfr | exact Hsh | by apply Hv].
Qed.

(** A heap that only grew keeps its commands valid. *)
Lemma valid_command_grow h h' c x :
  (length (lights h) ≤ length (lights h'))%nat →
  (length (stereos h) ≤ length (stereos h'))%nat →
  (length (fans h) ≤ length (fans h'))%nat →
  valid_command h c x → valid_command h' c x.
Proof. intros Hl Hs Hf. destruct x; simpl; try done; lia. Qed.

Lemma alloc_Command_valid_refs x h :
  valid_command h (length (cmds h)) x →
  valid_refs h → valid_refs (alloc_Command x h).2.
Proof.
  intros Hx Hv c y H. simpl in H.
  apply lookup_snoc_Some in H as [[_ H] | [-> <-]].
  - apply (valid_command_grow h); simpl; auto.
  - apply (valid_command_grow h); simpl; auto.
Qed.

Lemma perform_valid_refs a h h' :
  perform a h = Ok h' → valid_refs h → valid_refs h'.
Proof.
  intros H Hv.
  destruct (perform_prim_or_new a h h' H) as [Hp | _].
  { eapply frame_valid_refs; [by apply rtc_prim_frame | done]. }
  destruct a; simpl in H;
    try (injection H as <-);
    try (case_decide; [injection H as <- | discriminate]);
    try (by apply alloc_Command_valid_refs);
    try (intros c x Hc; apply (valid_command_grow h); simpl;
         rewrite ?length_app; try lia; by apply Hv).
  - apply bind_Ok in H as ([c h1] & H1 & H). injection H as <-.
    unfold new_CeilingFanCommand, CeilingFan_getSpeed in H1.
    destruct (fans h !! ceilingFan) as [o |] eqn:Hf; [| discriminate].
    simpl in H1. injection H1 as _ <-.
    apply alloc_Command_valid_refs; [| done]. simpl. by eapply lookup_lt_Some.
  - eapply frame_valid_refs; [by eapply rtc_prim_frame, Light_on_prim | done].
  - eapply frame_valid_refs; [by eapply rtc_prim_frame, Light_off_prim | done].
  - eapply frame_valid_refs; [by eapply rtc_prim_frame, Stereo_on_prim | done].
  - eapply frame_valid_refs; [by eapply rtc_prim_frame, Stereo_off_prim | done].
  - eapply frame_valid_refs; [by eapply rtc_prim_frame, Stereo_setCD_prim | done].
  - eapply frame_valid_refs;
      [by eapply rtc_prim_frame, Stereo_setVolume_prim | done].
  - eapply frame_valid_refs;
      [by eapply rtc_prim_frame, (fan_transition_prim CeilingFanHighCommand)
      | done].
  - eapply frame_valid_refs;
      [by eapply rtc_prim_frame, (fan_transition_prim CeilingFanMediumCommand)
      | done].
  - eapply frame_valid_refs;
      [by eapply rtc_prim_frame, (fan_transition_prim CeilingFanLowCommand)
      | done].
  - eapply frame_valid_refs;
      [by eapply rtc_prim_frame, (fan_transition_prim CeilingFanOffCommand)
      | done].
  - eapply frame_valid_refs; [by eapply rtc_prim_frame, execute_prim | done].
  - eapply frame_valid_refs; [by eapply rtc_prim_frame, undo_prim | done].
Qed.

Lemma reachable_valid_refs h : reachable h → valid_refs h.
Proof.
  induction 1 as [| a h h' _ IH Hp]; [| by eapply perform_valid_refs].
  intros c x H. simpl in H. by rewrite lookup_nil in H.
Qed.

Lemma frame_length_cmds h h' : frame h h' → length (cmds h') = length (cmds h).
Proof. intros (_ & _ & _ & H). symmetry. by eapply Forall2_length. Qed.

Lemma CeilingFan_set_total f v what h :
  (f < length (fans h))%nat → ∃ h', CeilingFan_set f v what h = Ok h'.
Proof.
  intros Hf. unfold CeilingFan_set.
  destruct (lookup_lt_is_Some_2 (fans h) f Hf) as [o ->]. eauto.
Qed.

(** On valid references, running a call over a list of older commands
    returns, provided the call returns on each of them. *)
Lemma forEach_total (g : ref → Heap → result Heap) (b : nat) :
  (∀ c h h', g c h = Ok h' → frame h h') →
  (∀ c h, valid_refs h → (c < b)%nat → (c < length (cmds h))%nat →
          ∃ h', g c h = Ok h') →
  ∀ cs h, valid_refs h → Forall (λ c, c < b ∧ c < length (cmds h))%nat cs →
          ∃ h', forEach g cs h = Ok h'.
Proof.
  intros Hfr Hg. induction cs as [| c cs IH]; intros h Hv Hcs; simpl.
  - eauto.
  - apply Forall_cons in Hcs as [[Hb Hc] Hcs].
    destruct (Hg c h Hv Hb Hc) as (h1 & H1). rewrite H1. simpl.
    pose proof (Hfr _ _ _ H1) as F.
    apply IH; [by eapply frame_valid_refs |].
    by rewrite (frame_length_cmds _ _ F).
Qed.

Lemma macro_children_bound h m cs (b : nat) :
  valid_refs h → cmds h !! m = Some (MacroCommand cs) → (m < S b)%nat →
  Forall (λ c, c < b ∧ c < length (cmds h))%nat cs.
Proof.
  intros Hv Hm Hb. pose proof (Hv m _ Hm) as Hcs. simpl in Hcs.
  pose proof (lookup_lt_Some _ _ _ Hm).
  eapply Forall_impl; [exact Hcs |]. simpl. lia.
Qed.

(** [execute] returns once the fuel exceeds the command's reference. *)
Lemma execute_total n :
  ∀ c h, valid_refs h → (c < n)%nat → (c < length (cmds h))%nat →
         ∃ h', execute n c h = Ok h'.
Proof.
  induction n as [| n IH]; intros c h Hv Hn Hlen; [lia |].
  rewrite execute_S.
  destruct (lookup_lt_is_Some_2 (cmds h) c Hlen) as [x Hx]. rewrite Hx.
  pose proof (Hv c x Hx) as Hvx.
  destruct x as [| l | s | cls f p | cs]; simpl in Hvx.
  - eauto.
  - unfold Light_off. destruct (lookup_lt_is_Some_2 (lights h) l Hvx) as [o ->].
    eauto.
  - unfold Stereo_on, Stereo_setCD, Stereo_setVolume.
    destruct (lookup_lt_is_Some_2 (stereos h) s Hvx) as [o Ho].
    rewrite Ho. simpl. rewrite Ho. simpl. rewrite Ho. eauto.
  - unfold CeilingFanCommand_execute, CeilingFan_getSpeed.
    destruct (lookup_lt_is_Some_2 (fans h) f Hvx) as [o ->]. simpl.
    rewrite fan_transition_set. by apply CeilingFan_set_total.
  - apply (forEach_total (execute n) n).
    + intros c' h1 h2 H. by eapply rtc_prim_frame, execute_prim.
    + intros c' h1 Hv1 Hb Hl. by apply IH.
    + exact Hv.
    + by eapply macro_children_bound.
Qed.

Lemma CeilingFanCommand_undo_total f p h :
  (f < length (fans h))%nat → ∃ h', CeilingFanCommand_undo f p h = Ok h'.
Proof.
  intros Hf. unfold CeilingFanCommand_undo.
  repeat case_match; eauto; by apply CeilingFan_set_total.
Qed.

Lemma undo_total n :
  ∀ c h, valid_refs h → (c < n)%nat → (c < length (cmds h))%nat →
         ∃ h', undo n c h = Ok h'.
Proof.
  induction n as [| n IH]; intros c h Hv Hn Hlen; [lia |].
  rewrite undo_S.
  destruct (lookup_lt_is_Some_2 (cmds h) c Hlen) as [x Hx]. rewrite Hx.
  pose proof (Hv c x Hx) as Hvx.
  destruct x as [| l | s | cls f p | cs]; simpl in Hvx.
  - eauto.
  - unfold Light_on. destruct (lookup_lt_is_Some_2 (lights h) l Hvx) as [o ->].
    eauto.
  - unfold Stereo_off.
    destruct (lookup_lt_is_Some_2 (stereos h) s Hvx) as [o ->]. eauto.
  - by apply CeilingFanCommand_undo_total.
  - apply (forEach_total (undo n) n).
    + intros c' h1 h2 H. by eapply rtc_prim_frame, undo_prim.
    + intros c' h1 Hv1 Hb Hl. by apply IH.
    + exact Hv.
    + by eapply macro_children_bound.
Qed.

(** More fuel does not change a result that was reached. *)
Lemma forEach_ext_Ok (g g' : ref → Heap → result Heap) :
  (∀ c h h', g c h = Ok h' → g' c h = Ok h') →
  ∀ cs h h', forEach g cs h = Ok h' → forEach g' cs h = Ok h'.
Proof.
  intros Hg. induction cs as [| c cs IH]; intros h h' H; simpl in *; [done |].
  apply bind_Ok in H as (h1 & H1 & H2).
  rewrite (Hg _ _ _ H1). simpl. by apply IH.
Qed.

Lemma execute_fuel_S n : ∀ c h h', execute n c h = Ok h' → execute (S n) c h = Ok h'.
Proof.
  induction n as [| n IH]; intros c h h' H; [discriminate |].
  rewrite execute_S in H. rewrite execute_S.
  destruct (cmds h !! c) as [[| l | s | cls f p | cs] |]; try done.
  by eapply forEach_ext_Ok.
Qed.

Lemma undo_fuel_S n : ∀ c h h', undo n c h = Ok h' → undo (S n) c h = Ok h'.
Proof.
  induction n as [| n IH]; intros c h h' H; [discriminate |].
  rewrite undo_S in H. rewrite undo_S.
  destruct (cmds h !! c) as [[| l | s | cls f p | cs] |]; try done.
  by eapply forEach_ext_Ok.
Qed.

Lemma execute_fuel_le n m c h h' :
  (n ≤ m)%nat → execute n c h = Ok h' → execute m c h = Ok h'.
Proof. induction 1; auto using execute_fuel_S. Qed.

Lemma undo_fuel_le n m c h h' :
  (n ≤ m)%nat → undo n c h = Ok h' → undo m c h = Ok h'.
Proof. induction 1; auto using undo_fuel_S. Qed.

(** No call fails on a heap a client can produce: every command of such a
    heap executes and undoes, with fuel beyond its reference. *)
Lemma reachable_calls_return h c n :
  reachable h → (c < length (cmds h))%nat → (c < n)%nat →
  (∃ h', execute n c h = Ok h') ∧ (∃ h', undo n c h = Ok h').
Proof.
  intros Hr Hc Hn. pose proof (reachable_valid_refs h Hr) as Hv.
  split; [by apply execute_total | by apply undo_total].
Qed.

(** * The closed set of speeds *)

(** C10. Closed-speed invariant: a new fan is OFF; every heap a client can
    produce has every fan's [speed] and every fan command's [prevSpeed] among
    OFF, LOW, MEDIUM, HIGH; every constructor, transition, [execute] and
    [undo], and every button of the remote, keeps it so; and on such a heap
    the [undo] of a fan command always takes one of its four branches: it is
    the transition to the snapshot's level and it returns with the fan at
    that level. *)
Theorem closed_speed_invariant :
  (∀ loc h,
     CeilingFan_getSpeed (new_CeilingFan loc h).1 (new_CeilingFan loc h).2
     = Ok OFF) ∧
  (∀ h, reachable h → closed_speed h) ∧
  (∀ a h h', closed_speed h → perform a h = Ok h' → closed_speed h') ∧
  (∀ n slot st st',
     closed_speed st.2 →
     onButtonWasPushed n slot st = Ok st' ∨
     offButtonWasPushed n slot st = Ok st' ∨
     undoButtonWasPushed n st = Ok st' →
     closed_speed st'.2) ∧
  (∀ h c cls f p n,
     reachable h →
     cmds h !! c = Some (CeilingFanCommand cls f p) →
     is_level p ∧
     ∃ k h', fan_target k = p ∧
             undo (S n) c h = fan_transition k f h ∧
             undo (S n) c h = Ok h' ∧
             CeilingFan_getSpeed f h' = Ok p).
Proof.
  split; [| split; [| split; [| split]]].
  - intros loc h. unfold CeilingFan_getSpeed. simpl.
    by rewrite list_lookup_middle.
  - apply reachable_closed_speed.
  - intros a h h' Hinv Hp. by eapply perform_closed_speed.
  - intros n slot [rc h] st' Hinv [H | [H | H]]; simpl in *.
    + unfold onButtonWasPushed in H. simpl in H.
      destruct (Array_get (onCommands rc) slot); [| discriminate].
      apply bind_Ok in H as (h1 & H1 & [= <-]). simpl.
      eapply rtc_prim_closed_speed; [by eapply execute_prim | done].
    + unfold offButtonWasPushed in H. simpl in H.
      destruct (Array_get (offCommands rc) slot); [| discriminate].
      apply bind_Ok in H as (h1 & H1 & [= <-]). simpl.
      eapply rtc_prim_closed_speed; [by eapply execute_prim | done].
    + unfold undoButtonWasPushed in H. simpl in H.
      apply bind_Ok in H as (h1 & H1 & [= <-]). simpl.
      eapply rtc_prim_closed_speed; [by eapply undo_prim | done].
  - intros h c cls f p n Hr Hc.
    pose proof (reachable_closed_speed h Hr) as [_ Hcmds].
    pose proof (Hcmds c cls f p Hc) as Hp.
    pose proof (reachable_valid_refs h Hr c _ Hc) as Hf. simpl in Hf.
    split; [exact Hp |].
    destruct (CeilingFanCommand_undo_level f p h Hp) as (k & Hk & Hu).
    destruct (lookup_lt_is_Some_2 (fans h) f Hf) as [o Ho].
    exists k. eexists. split; [exact Hk |].
    rewrite undo_S, Hc, Hu. split; [reflexivity |].
    rewrite fan_transition_set. unfold CeilingFan_set. rewrite Ho.
    split; [reflexivity |].
    unfold CeilingFan_getSpeed. simpl.
    rewrite list_lookup_insert_eq by (by eapply lookup_lt_Some).
    by rewrite Hk.
Qed.

(** * Macro commands *)

Lemma foldl_bind_forEach (g : ref → Heap → result Heap) (cs : list ref) :
  ∀ r : result Heap,
    foldl (λ acc c, acc ≫= g c) r cs = r ≫= forEach g cs.
Proof.
  induction cs as [| c cs IH]; intros r; simpl.
  - by destruct r.
  - rewrite IH. by destruct r.
Qed.

Lemma forEach_in_list_order g cs h : forEach g cs h = in_list_order g cs h.
Proof. unfold in_list_order. by rewrite foldl_bind_forEach. Qed.

Lemma in_list_order_app g cs1 cs2 h :
  in_list_order g (cs1 ++ cs2) h
  = in_list_order g cs1 h ≫= in_list_order g cs2.
Proof.
  unfold in_list_order. rewrite foldl_app, !foldl_bind_forEach. simpl.
  destruct (forEach g cs1 h) as [h1 | e]; simpl; [| done].
  by rewrite foldl_bind_forEach.
Qed.

(** C2. Macro ordering: [execute] of a macro command is the [execute] of its
    children from the first of the list to the last, each in the heap the
    one before left behind, and [undo] is the [undo] of the children in that
    same first-to-last order; on valid references both return once the fuel
    exceeds the macro command's reference. *)
Theorem MacroCommand_order (n : nat) (h : Heap) (m : ref) (cs : list ref) :
  cmds h !! m = Some (MacroCommand cs) →
  execute (S n) m h = in_list_order (execute n) cs h ∧
  undo (S n) m h = in_list_order (undo n) cs h ∧
  (valid_refs h → (m ≤ n)%nat →
   (∃ h', execute (S n) m h = Ok h') ∧ (∃ h', undo (S n) m h = Ok h')).
Proof.
  intros Hm. split; [| split].
  - by rewrite execute_S, Hm, forEach_in_list_order.
  - by rewrite undo_S, Hm, forEach_in_list_order.
  - intros Hv Hn. pose proof (lookup_lt_Some _ _ _ Hm).
    split; [apply execute_total | apply undo_total]; auto; lia.
Qed.

Lemma wired_macro_heap_valid : valid_refs wired_macro_heap.
Proof.
  intros c x H.
  assert (Hf : length (fans wired_macro_heap) = 1%nat) by reflexivity.
  remember (cmds wired_macro_heap) as l eqn:Hc.
  vm_compute in Hc. subst l.
  do 20 (destruct c as [| c];
         [injection H as <-; unfold valid_command; rewrite ?Hf;
          first [exact I | lia | repeat constructor; lia] |]).
  apply lookup_lt_Some in H. simpl in H. lia.
Qed.

Lemma wired_macro_heap_length : length (cmds wired_macro_heap) = 20%nat.
Proof. vm_compute. reflexivity. Qed.

Lemma MacroCommand_order_witness :
  execute 20 19%nat wired_macro_heap
  = in_list_order (execute 19) [16; 17]%nat wired_macro_heap ∧
  undo 20 19%nat wired_macro_heap
  = in_list_order (undo 19) [16; 17]%nat wired_macro_heap ∧
  (∃ h', execute 20 19%nat wired_macro_heap = Ok h') ∧
  (∃ h', undo 20 19%nat wired_macro_heap = Ok h').
Proof.
  destruct (MacroCommand_order 19%nat wired_macro_heap 19%nat [16; 17]%nat
              eq_refl) as (He & Hu & Ht).
  split; [exact He |]. split; [exact Hu |].
  apply Ht; [apply wired_macro_heap_valid | lia].
Defined.

(** The macro of (high, low) on a fan that is off: [execute] leaves the fan
    on low; [undo] first undoes high (back to off) and then undoes low (back
    to high, the speed before low), so the fan is left on high.  Undoing in
    reverse order would have left it off. *)
Example macro_undo_same_order :
  (h1 ← execute 2 19%nat wired_macro_heap;
   h2 ← undo 2 19%nat h1;
   mret (CeilingFan_getSpeed 0%nat h1, CeilingFan_getSpeed 0%nat h2,
         drop 1 (console h2)))
  = Ok (Ok LOW, Ok HIGH,
        ["Living Room ceiling fan is on low";
         "Living Room ceiling fan is off";
         "Living Room ceiling fan is on high"]).
Proof. reflexivity. Qed.

(** * Binding a slot *)

Lemma Array_get_set_eq a i v : Array_get (Array_set a i v) i = Some v.
Proof. unfold Array_get, Array_set. simpl. apply lookup_insert_eq. Qed.

Lemma Array_get_set_ne a i j v :
  i ≠ j → Array_get (Array_set a i v) j = Array_get a j.
Proof. intros. unfold Array_get, Array_set. simpl. by apply lookup_insert_ne. Qed.

(** The length after [a[i] = v]. *)
Lemma Array_set_len_within a i v :
  0 ≤ i < len a → len (Array_set a i v) = len a.
Proof.
  intros. unfold Array_set. simpl.
  replace (len a <=? i) with false by (symmetry; apply Z.leb_gt; lia).
  by rewrite andb_false_r.
Qed.

Lemma Array_set_len_beyond a i v :
  len a ≤ i → 0 ≤ i < 2 ^ 32 - 1 → len (Array_set a i v) = i + 1.
Proof.
  intros. unfold Array_set. simpl.
  replace (0 <=? i) with true by (symmetry; apply Z.leb_le; lia).
  replace (i <? 2 ^ 32 - 1) with true by (symmetry; apply Z.ltb_lt; lia).
  replace (len a <=? i) with true by (symmetry; apply Z.leb_le; lia).
  reflexivity.
Qed.

(** C5, as the code has it. [setCommand] has no range check: for every
    integer slot it returns without an error and stores both commands at that
    slot, leaving every other slot and the undo target as they were.  A slot
    within the table keeps the table's length; a slot at or beyond the length
    extends the table to [slot + 1] entries.  [RemoteControl.setCommand] is
    the same function on a remote without an undo target. *)
Theorem setCommand_never_fails
    (rc : RemoteLoaderWithUndo.t) (slot : Z) (on off : ref) :
  (∃ rc',
     setCommand slot on off rc = Ok rc' ∧
     Array_get (onCommands rc') slot = Some on ∧
     Array_get (offCommands rc') slot = Some off ∧
     (∀ s, s ≠ slot →
           Array_get (onCommands rc') s = Array_get (onCommands rc) s ∧
           Array_get (offCommands rc') s = Array_get (offCommands rc) s) ∧
     undoCommand rc' = undoCommand rc ∧
     (0 ≤ slot < len (onCommands rc) →
      len (onCommands rc') = len (onCommands rc)) ∧
     (0 ≤ slot < len (offCommands rc) →
      len (offCommands rc') = len (offCommands rc)) ∧
     (len (onCommands rc) ≤ slot → 0 ≤ slot < 2 ^ 32 - 1 →
      len (onCommands rc') = slot + 1) ∧
     (len (offCommands rc) ≤ slot → 0 ≤ slot < 2 ^ 32 - 1 →
      len (offCommands rc') = slot + 1)) ∧
  (∀ rc0 : RemoteControl.t,
     ∃ rc0',
       RemoteControl.setCommand slot on off rc0 = Ok rc0' ∧
       RemoteControl.onCommands rc0'
       = Array_set (RemoteControl.onCommands rc0) slot on ∧
       RemoteControl.offCommands rc0'
       = Array_set (RemoteControl.offCommands rc0) slot off).
Proof.
  split.
  - eexists. split; [reflexivity |].
    cbn [onCommands offCommands undoCommand].
    split; [apply Array_get_set_eq |]. split; [apply Array_get_set_eq |].
    split; [intros s Hs; split; apply Array_get_set_ne; congruence |].
    split; [reflexivity |].
    split; [apply Array_set_len_within |].
    split; [apply Array_set_len_within |].
    split; apply Array_set_len_beyond.
  - intros rc0. eexists. split; [reflexivity |]. by simpl.
Qed.

(** On a fresh remote, whose tables have [capacity] = 7 slots, binding slot 7
    is not refused: it succeeds and the tables then have 8 slots. *)
Lemma setCommand_out_of_range_succeeds :
  len (onCommands (RemoteLoaderWithUndo.new empty_heap).1) = capacity ∧
  ¬ bind_checks_range (RemoteLoaderWithUndo.new empty_heap).1 capacity ∧
  ∃ rc',
    setCommand 7 1%nat 2%nat (RemoteLoaderWithUndo.new empty_heap).1 = Ok rc' ∧
    Array_get (onCommands rc') 7 = Some 1%nat ∧
    Array_get (offCommands rc') 7 = Some 2%nat ∧
    len (onCommands rc') = 8 ∧ len (offCommands rc') = 8.
Proof.
  split; [reflexivity |]. split.
  - intros Hclaim.
    destruct (Hclaim 7 1%nat 2%nat) as [Hok _].
    unfold capacity in Hok.
    assert (0 ≤ 7 < 7) by (apply Hok; eexists; reflexivity). lia.
  - eexists. split; [reflexivity |].
    split; [apply Array_get_set_eq |]. split; [apply Array_get_set_eq |].
    split; reflexivity.
Qed.

(** * Binary devices *)

Lemma light_report_on loc st :
  light_report loc st (loc +:+ " light is on") = Some true.
Proof. unfold light_report. by rewrite decide_True. Qed.

Lemma stereo_report_off st : stereo_report st "Stereo is off" = Some false.
Proof. reflexivity. Qed.

Lemma reported_light_snoc loc log line :
  reported_light loc (log ++ [line])
  = light_report loc (reported_light loc log) line.
Proof. unfold reported_light. by rewrite foldl_snoc. Qed.

Lemma reported_stereo_snoc log line :
  reported_stereo (log ++ [line]) = stereo_report (reported_stereo log) line.
Proof. unfold reported_stereo. by rewrite foldl_snoc. Qed.

(** C6, as the code has it. The [undo] of a binary command is the static
    complementary transition: [execute] then [undo] of a [LightOffCommand]
    always succeed, report off and then on, change no object of the heap and
    leave the light reported on, whatever it was before; the light is back
    in its earlier state exactly when it was on before.  Likewise [execute]
    then [undo] of a [StereoOnWithCDCommand] leave the stereo reported off,
    which is its earlier state exactly when it was off before. *)
Theorem binary_undo_is_static_complement (n : nat) (h : Heap) (c : ref) :
  (∀ l o,
     cmds h !! c = Some (LightOffCommand l) →
     lights h !! l = Some o →
     ∃ h1 h2,
       execute (S n) c h = Ok h1 ∧
       undo (S n) c h1 = Ok h2 ∧
       undo (S n) c h1 = Light_on l h1 ∧
       console h2 = console h ++ [Light_location o +:+ " light is off";
                                  Light_location o +:+ " light is on"] ∧
       devices h2 = devices h ∧ cmds h2 = cmds h ∧
       reported_light (Light_location o) (console h2) = Some true ∧
       (restores_light (S n) c (Light_location o) h
        ↔ reported_light (Light_location o) (console h) = Some true)) ∧
  (∀ s o,
     cmds h !! c = Some (StereoOnWithCDCommand s) →
     stereos h !! s = Some o →
     ∃ h1 h2,
       execute (S n) c h = Ok h1 ∧
       undo (S n) c h1 = Ok h2 ∧
       undo (S n) c h1 = Stereo_off s h1 ∧
       console h2 = console h ++ ["Stereo is on";
                                  "Stereo is set for CD input";
                                  "Stereo volume set to 11";
                                  "Stereo is off"] ∧
       devices h2 = devices h ∧ cmds h2 = cmds h ∧
       reported_stereo (console h2) = Some false ∧
       (restores_stereo (S n) c h
        ↔ reported_stereo (console h) = Some false)).
Proof.
  split.
  - intros l o Hc Hl.
    assert (He : execute (S n) c h
                 = Ok (console_log (Light_location o +:+ " light is off") h)).
    { rewrite execute_S, Hc. unfold Light_off. by rewrite Hl. }
    assert (Hu : undo (S n) c (console_log (Light_location o +:+ " light is off") h)
                 = Ok (console_log (Light_location o +:+ " light is on")
                         (console_log (Light_location o +:+ " light is off") h))).
    { rewrite undo_S. cbn [cmds console_log]. rewrite Hc. unfold Light_on.
      cbn [lights console_log]. by rewrite Hl. }
    assert (Hrep : reported_light (Light_location o)
                     ((console h ++ [Light_location o +:+ " light is off"])
                        ++ [Light_location o +:+ " light is on"]) = Some true).
    { by rewrite reported_light_snoc, light_report_on. }
    do 2 eexists. split; [exact He |]. split; [exact Hu |].
    split; [rewrite undo_S; cbn [cmds console_log]; by rewrite Hc |].
    simpl. split; [by rewrite <- app_assoc |].
    split; [reflexivity |]. split; [reflexivity |].
    split; [exact Hrep |].
    unfold restores_light. split.
    + intros (h1 & h2 & H1 & H2 & H3).
      rewrite He in H1. injection H1 as <-.
      rewrite Hu in H2. injection H2 as <-.
      simpl in H3. by rewrite <- H3, Hrep.
    + intros Hon. do 2 eexists. split; [exact He |]. split; [exact Hu |].
      simpl. by rewrite Hrep, Hon.
  - intros s o Hc Hs.
    set (h1 := console_log "Stereo volume set to 11"
                 (console_log "Stereo is set for CD input"
                    (console_log "Stereo is on" h))).
    assert (He : execute (S n) c h = Ok h1).
    { rewrite execute_S, Hc. unfold Stereo_on, Stereo_setCD, Stereo_setVolume.
      rewrite Hs. simpl. rewrite Hs. simpl. by rewrite Hs. }
    assert (Hu : undo (S n) c h1 = Ok (console_log "Stereo is off" h1)).
    { rewrite undo_S. subst h1. cbn [cmds console_log]. rewrite Hc.
      unfold Stereo_off. cbn [stereos console_log]. by rewrite Hs. }
    assert (Hrep : reported_stereo (console (console_log "Stereo is off" h1))
                   = Some false).
    { simpl. by rewrite reported_stereo_snoc. }
    exists h1, (console_log "Stereo is off" h1).
    split; [exact He |]. split; [exact Hu |].
    split; [rewrite undo_S; subst h1; cbn [cmds console_log]; by rewrite Hc |].
    split; [simpl; by rewrite <- !app_assoc |].
    split; [reflexivity |]. split; [reflexivity |].
    split; [exact Hrep |].
    unfold restores_stereo. split.
    + intros (h1' & h2 & H1 & H2 & H3).
      rewrite He in H1. injection H1 as <-.
      rewrite Hu in H2. injection H2 as <-.
      by rewrite <- H3, Hrep.
    + intros Hoff. do 2 eexists. split; [exact He |]. split; [exact Hu |].
      by rewrite Hrep, Hoff.
Qed.

(** A kitchen light that is off: its off-command's [execute] and [undo]
    leave it on.  A stereo that is on: its on-command's [execute] and [undo]
    leave it off. *)
Lemma binary_round_trip_fails :
  reported_light "Kitchen" (console kitchen_off) = Some false ∧
  (∃ h1 h2, execute 1 0%nat kitchen_off = Ok h1 ∧ undo 1 0%nat h1 = Ok h2 ∧
            reported_light "Kitchen" (console h2) = Some true) ∧
  ¬ restores_light 1 0%nat "Kitchen" kitchen_off ∧
  reported_stereo (console den_on) = Some true ∧
  (∃ h1 h2, execute 1 0%nat den_on = Ok h1 ∧ undo 1 0%nat h1 = Ok h2 ∧
            reported_stereo (console h2) = Some false) ∧
  ¬ restores_stereo 1 0%nat den_on.
Proof.
  split; [reflexivity |].
  split; [do 2 eexists; repeat split; reflexivity |].
  split.
  { intros (h1 & h2 & H1 & H2 & H3).
    vm_compute in H1. injection H1 as <-.
    vm_compute in H2. injection H2 as <-.
    vm_compute in H3. discriminate. }
  split; [reflexivity |].
  split; [do 2 eexists; repeat split; reflexivity |].
  intros (h1 & h2 & H1 & H2 & H3).
  vm_compute in H1. injection H1 as <-.
  vm_compute in H2. injection H2 as <-.
  vm_compute in H3. discriminate.
Qed.

Lemma binary_undo_is_static_complement_witness :
  restores_light 1 0%nat "Kitchen" kitchen_off
  ↔ reported_light "Kitchen" (console kitchen_off) = Some true.
Proof.
  destruct (proj1 (binary_undo_is_static_complement 0%nat kitchen_off 0%nat)
              0%nat {| Light_location := "Kitchen" |} eq_refl eq_refl)
    as (h1 & h2 & _ & _ & _ & _ & _ & _ & _ & H).
  exact H.
Defined.

(** * Further properties of the invokers *)

Lemma result_bind_Ok {A B} (a : A) (f : A → result B) : Ok a ≫= f = f a.
Proof. reflexivity. Qed.

Lemma new_outside (h : Heap) (s : Z) :
  ¬ (0 ≤ s < capacity) →
  Array_get (onCommands (RemoteLoaderWithUndo.new h).1) s = None ∧
  Array_get (offCommands (RemoteLoaderWithUndo.new h).1) s = None.
Proof.
  intros Hs. unfold RemoteLoaderWithUndo.new.
  pose proof (fill_spec (Z.to_nat capacity) 0 Array_empty Array_empty h) as Hf.
  cbv zeta in Hf.
  destruct (fill (Z.to_nat capacity) 0 Array_empty Array_empty h)
    as [[on off] h1] eqn:E.
  destruct Hf as (_ & _ & _ & Hout & _).
  destruct (Hout s) as [H1 H2]; [unfold capacity in *; simpl; lia |].
  simpl in *. rewrite H1, H2. unfold Array_get, Array_empty. simpl.
  by rewrite lookup_empty.
Qed.



(** X2. Binding and then pushing: after [setCommand(slot, on, off)] a push
    of that slot's on button is [execute] of [on] followed by making [on]
    the undo target, and a push of its off button is the same with [off];
    the pushes of every other slot find the command they found before. *)
Theorem setCommand_then_push
    (n : nat) (rc : RemoteLoaderWithUndo.t) (h : Heap) (slot : Z)
    (on off : ref) :
  ∃ rc',
    setCommand slot on off rc = Ok rc' ∧
    onButtonWasPushed n slot (rc', h)
    = (h' ← execute n on h; mret (set_undoCommand on rc', h')) ∧
    offButtonWasPushed n slot (rc', h)
    = (h' ← execute n off h; mret (set_undoCommand off rc', h')) ∧
    (∀ s, s ≠ slot →
       onButtonWasPushed n s (rc', h)
       = (st ← onButtonWasPushed n s (rc, h);
          mret (set_undoCommand (undoCommand st.1) rc', st.2)) ∧
       offButtonWasPushed n s (rc', h)
       = (st ← offButtonWasPushed n s (rc, h);
          mret (set_undoCommand (undoCommand st.1) rc', st.2))).
Proof.
  eexists. split; [reflexivity |].
  unfold onButtonWasPushed, offButtonWasPushed.
  cbn [fst snd onCommands offCommands].
  rewrite !Array_get_set_eq. split; [reflexivity |]. split; [reflexivity |].
  intros s Hs. rewrite !Array_get_set_ne by congruence.
  split.
  - destruct (Array_get (onCommands rc) s); [| reflexivity].
    by destruct (execute n n0 h).
  - destruct (Array_get (offCommands rc) s); [| reflexivity].
    by destruct (execute n n0 h).
Qed.

(** What a fan command's [execute] leaves of the other commands. *)
Lemma after_execute_other_cmd h c f cls o c' :
  c ≠ c' → cmds (after_execute h c f cls o) !! c' = cmds h !! c'.
Proof. intros. simpl. by apply list_lookup_insert_ne. Qed.

Lemma after_execute_other_fan h c f cls o f' :
  f ≠ f' → fans (after_execute h c f cls o) !! f' = fans h !! f'.
Proof. intros. simpl. by apply list_lookup_insert_ne. Qed.

(** After the [execute] of a fan command on [f], every fan command on [f]
    is still a fan command on [f]. *)
Lemma after_execute_fan_cmd h a f ka pa o b kb pb :
  cmds h !! a = Some (CeilingFanCommand ka f pa) →
  cmds h !! b = Some (CeilingFanCommand kb f pb) →
  ∃ pb', cmds (after_execute h a f ka o) !! b
         = Some (CeilingFanCommand kb f pb').
Proof.
  intros Ha Hb. destruct (decide (a = b)) as [-> | Hne].
  - rewrite Ha in Hb. injection Hb as -> ->.
    eexists. by eapply after_execute_cmd.
  - exists pb. by rewrite after_execute_other_cmd.
Qed.

(** X3. Push, then undo: when a slot's button is bound to a fan command
    and the fan is at one of the four levels, a push of that button followed
    by a push of the undo button returns, leaves that command as the undo
    target and leaves every fan, light and stereo as it was before the
    push. *)
Theorem push_then_undo_restores_fan
    (n : nat) (rc : RemoteLoaderWithUndo.t) (h : Heap) (slot : Z)
    (c f : ref) (cls : FanCommandClass) (p : Z) (o : CeilingFan) :
  cmds h !! c = Some (CeilingFanCommand cls f p) →
  fans h !! f = Some o →
  is_level (speed o) →
  (Array_get (onCommands rc) slot = Some c →
   ∃ h2, (st ← onButtonWasPushed (S n) slot (rc, h);
          undoButtonWasPushed (S n) st) = Ok (set_undoCommand c rc, h2) ∧
         devices h2 = devices h) ∧
  (Array_get (offCommands rc) slot = Some c →
   ∃ h2, (st ← offButtonWasPushed (S n) slot (rc, h);
          undoButtonWasPushed (S n) st) = Ok (set_undoCommand c rc, h2) ∧
         devices h2 = devices h).
Proof.
  intros Hc Hf Hl.
  destruct (undo_after_execute h c f cls p o Hc Hf n Hl)
    as (h2 & Hu & Hfans & _ & Hlights & Hstereos).
  pose proof (execute_fan h c f cls p o Hc Hf n) as He.
  split; intros Hs; exists h2.
  - unfold onButtonWasPushed. cbn [fst snd].
    rewrite Hs, He, !result_bind_Ok. unfold mret, result_ret.
    rewrite ?result_bind_Ok. unfold undoButtonWasPushed.
    cbn [fst snd set_undoCommand undoCommand].
    rewrite Hu, result_bind_Ok.
    split; [reflexivity |]. unfold devices. by rewrite Hfans, Hlights, Hstereos.
  - unfold offButtonWasPushed. cbn [fst snd].
    rewrite Hs, He, !result_bind_Ok. unfold mret, result_ret.
    rewrite ?result_bind_Ok. unfold undoButtonWasPushed.
    cbn [fst snd set_undoCommand undoCommand].
    rewrite Hu, result_bind_Ok.
    split; [reflexivity |]. unfold devices. by rewrite Hfans, Hlights, Hstereos.
Qed.

Lemma push_then_undo_restores_fan_witness :
  ∃ h2, (st ← onButtonWasPushed 1 2 (wired_remote, wired_heap_high);
         undoButtonWasPushed 1 st) = Ok (set_undoCommand 17%nat wired_remote, h2) ∧
        devices h2 = devices wired_heap_high.
Proof.
  apply (push_then_undo_restores_fan 0%nat wired_remote wired_heap_high 2
           17%nat 0%nat CeilingFanLowCommand OFF
           {| location := "Living Room"; speed := HIGH |}).
  - reflexivity.
  - reflexivity.
  - right; right; right; reflexivity.
  - reflexivity.
Defined.

(** X4. Undo reverses only the last [execute]: when two fan commands [a]
    and [b] on the same fan (two objects or one) are executed one after the
    other, the [undo] of [b] leaves the fan at the speed [a] set, whatever
    the speed before [a]. *)
Theorem undo_reverses_only_last_execute
    (n : nat) (h : Heap) (a b f : ref) (ka kb : FanCommandClass) (pa pb : Z)
    (o : CeilingFan) :
  cmds h !! a = Some (CeilingFanCommand ka f pa) →
  cmds h !! b = Some (CeilingFanCommand kb f pb) →
  fans h !! f = Some o →
  ∃ h1 h2 h3,
    execute (S n) a h = Ok h1 ∧
    execute (S n) b h1 = Ok h2 ∧
    undo (S n) b h2 = Ok h3 ∧
    CeilingFan_getSpeed f h2 = Ok (fan_target kb) ∧
    CeilingFan_getSpeed f h3 = Ok (fan_target ka).
Proof.
  intros Ha Hb Hf.
  pose proof (execute_fan h a f ka pa o Ha Hf n) as He1.
  pose proof (after_execute_fan h a f ka o Hf) as Hf1.
  destruct (after_execute_fan_cmd h a f ka pa o b kb pb Ha Hb) as (pb' & Hb1).
  set (h1 := after_execute h a f ka o) in *.
  set (o1 := {| location := location o; speed := fan_target ka |}) in *.
  pose proof (execute_fan h1 b f kb pb' o1 Hb1 Hf1 n) as He2.
  destruct (undo_after_execute h1 b f kb pb' o1 Hb1 Hf1 n
              (fan_target_level ka)) as (h3 & Hu & Hfans & _).
  exists h1, (after_execute h1 b f kb o1), h3.
  split; [exact He1 |]. split; [exact He2 |]. split; [exact Hu |].
  unfold CeilingFan_getSpeed.
  rewrite (after_execute_fan h1 b f kb o1 Hf1), Hfans, Hf1. auto.
Qed.

(** Medium, then off, then the undo of off: the fan is on medium. *)
Lemma undo_reverses_only_last_execute_witness :
  ∃ h1 h2 h3,
    execute 1 15%nat wired_heap_high = Ok h1 ∧
    execute 1 18%nat h1 = Ok h2 ∧
    undo 1 18%nat h2 = Ok h3 ∧
    CeilingFan_getSpeed 0%nat h2 = Ok OFF ∧
    CeilingFan_getSpeed 0%nat h3 = Ok MEDIUM.
Proof.
  apply (undo_reverses_only_last_execute 0%nat wired_heap_high 15%nat 18%nat
           0%nat CeilingFanMediumCommand CeilingFanOffCommand OFF OFF
           {| location := "Living Room"; speed := HIGH |}); reflexivity.
Defined.

(** * What no call does *)

Lemma button_prim n slot st st' :
  onButtonWasPushed n slot st = Ok st' ∨
  offButtonWasPushed n slot st = Ok st' ∨
  undoButtonWasPushed n st = Ok st' →
  rtc prim st.2 st'.2.
Proof.
  destruct st as [rc h]. intros [H | [H | H]]; simpl in *.
  - unfold onButtonWasPushed in H. simpl in H.
    destruct (Array_get (onCommands rc) slot); [| discriminate].
    apply bind_Ok in H as (h1 & H1 & [= <-]). by eapply execute_prim.
  - unfold offButtonWasPushed in H. simpl in H.
    destruct (Array_get (offCommands rc) slot); [| discriminate].
    apply bind_Ok in H as (h1 & H1 & [= <-]). by eapply execute_prim.
  - unfold undoButtonWasPushed in H. simpl in H.
    apply bind_Ok in H as (h1 & H1 & [= <-]). by eapply undo_prim.
Qed.

Lemma prim_console h h' : prim h h' → ∃ lines, console h' = console h ++ lines.
Proof.
  destruct 1; simpl; [by eexists | exists [] | exists []];
    by rewrite app_nil_r.
Qed.

Lemma rtc_prim_console h h' :
  rtc prim h h' → ∃ lines, console h' = console h ++ lines.
Proof.
  induction 1 as [h | h1 h2 h3 H12 _ (l2 & IH)].
  - exists []. by rewrite app_nil_r.
  - destruct (prim_console _ _ H12) as (l1 & H1).
    exists (l1 ++ l2). by rewrite IH, H1, app_assoc.
Qed.

(** X5. The console is append-only: whatever [execute] or [undo] of any
    command (macro commands included) or a push of any button of the remote
    does, the lines printed before are still there, in order, at the start
    of the console. *)
Theorem calls_only_append_to_console (n : nat) (c : ref) (slot : Z)
    (h : Heap) (rc : RemoteLoaderWithUndo.t) :
  (∀ h', execute n c h = Ok h' ∨ undo n c h = Ok h' →
         ∃ lines, console h' = console h ++ lines) ∧
  (∀ st', onButtonWasPushed n slot (rc, h) = Ok st' ∨
          offButtonWasPushed n slot (rc, h) = Ok st' ∨
          undoButtonWasPushed n (rc, h) = Ok st' →
          ∃ lines, console st'.2 = console h ++ lines).
Proof.
  split.
  - intros h' [H | H]; apply rtc_prim_console;
      [by eapply execute_prim | by eapply undo_prim].
  - intros st' H. apply rtc_prim_console.
    by apply (button_prim n slot (rc, h) st').
Qed.

Lemma keeps_identity_refl h : keeps_identity h h.
Proof.
  repeat split. apply Forall_Forall2_diag, Forall_forall. auto.
Qed.

Lemma prim_keeps_identity h h' : prim h h' → keeps_identity h h'.
Proof.
  destruct 1 as [line h | f o v h Hf Hv | c cls f p o h Hc Hf].
  - repeat split; simpl. apply Forall_Forall2_diag, Forall_forall. auto.
  - repeat split; simpl.
    rewrite <- (list_insert_id (fans h) f o Hf) at 1.
    apply Forall2_insert; [| reflexivity].
    apply Forall_Forall2_diag, Forall_forall. auto.
  - repeat split; simpl. apply Forall_Forall2_diag, Forall_forall. auto.
Qed.

Lemma rtc_prim_keeps_identity h h' : rtc prim h h' → keeps_identity h h'.
Proof.
  induction 1 as [h | h1 h2 h3 H12 _ (Hl & Hs & Hf)];
    [apply keeps_identity_refl |].
  destruct (prim_keeps_identity _ _ H12) as (Hl' & Hs' & Hf').
  repeat split; try congruence.
  eapply Forall2_trans; [| exact Hf' | exact Hf]. simpl. congruence.
Qed.

(** X6. Devices keep their identity: [execute] and [undo] of any command
    and the pushes of the remote's buttons leave the lights and the stereos
    as they are, create and remove no fan, and leave every fan under the
    location it was constructed with; only a fan's speed can change. *)
Theorem calls_keep_device_identity (n : nat) (c : ref) (slot : Z)
    (h : Heap) (rc : RemoteLoaderWithUndo.t) :
  (∀ h', execute n c h = Ok h' ∨ undo n c h = Ok h' →
         lights h' = lights h ∧ stereos h' = stereos h ∧
         length (fans h') = length (fans h) ∧
         ∀ f o, fans h !! f = Some o →
                ∃ o', fans h' !! f = Some o' ∧ location o' = location o) ∧
  (∀ st', onButtonWasPushed n slot (rc, h) = Ok st' ∨
          offButtonWasPushed n slot (rc, h) = Ok st' ∨
          undoButtonWasPushed n (rc, h) = Ok st' →
          lights st'.2 = lights h ∧ stereos st'.2 = stereos h ∧
          length (fans st'.2) = length (fans h) ∧
          ∀ f o, fans h !! f = Some o →
                 ∃ o', fans st'.2 !! f = Some o' ∧ location o' = location o).
Proof.
  assert (Hk : ∀ h', keeps_identity h h' →
            lights h' = lights h ∧ stereos h' = stereos h ∧
            length (fans h') = length (fans h) ∧
            ∀ f o, fans h !! f = Some o →
                   ∃ o', fans h' !! f = Some o' ∧ location o' = location o).
  { intros h' (Hl & Hs & Hf). split; [done |]. split; [done |].
    split; [symmetry; by eapply Forall2_length |].
    intros f o Ho. by eapply Forall2_lookup_l in Hf. }
  split.
  - intros h' [H | H]; apply Hk, rtc_prim_keeps_identity;
      [by eapply execute_prim | by eapply undo_prim].
  - intros st' H. apply Hk, rtc_prim_keeps_identity.
    by apply (button_prim n slot (rc, h) st').
Qed.

(** ** [undo] never takes a snapshot *)

Lemma CeilingFan_set_cmds f v what h h' :
  CeilingFan_set f v what h = Ok h' →
  cmds h' = cmds h ∧ lights h' = lights h ∧ stereos h' = stereos h.
Proof.
  unfold CeilingFan_set. destruct (fans h !! f); [| discriminate].
  by intros [= <-].
Qed.

Lemma CeilingFanCommand_undo_cmds f p h h' :
  CeilingFanCommand_undo f p h = Ok h' →
  cmds h' = cmds h ∧ lights h' = lights h ∧ stereos h' = stereos h.
Proof.
  unfold CeilingFanCommand_undo.
  repeat case_match; try apply CeilingFan_set_cmds. by intros [= <-].
Qed.

Lemma forEach_cmds (g : ref → Heap → result Heap) :
  (∀ c h h', g c h = Ok h' →
     cmds h' = cmds h ∧ lights h' = lights h ∧ stereos h' = stereos h) →
  ∀ cs h h', forEach g cs h = Ok h' →
     cmds h' = cmds h ∧ lights h' = lights h ∧ stereos h' = stereos h.
Proof.
  intros Hg. induction cs as [| c cs IH]; intros h h' H; simpl in H.
  - by injection H as <-.
  - apply bind_Ok in H as (h1 & H1 & H2).
    destruct (Hg _ _ _ H1) as (E1 & E2 & E3).
    destruct (IH _ _ H2) as (F1 & F2 & F3). repeat split; congruence.
Qed.

(** X7. [undo] leaves every command as it is: whatever command is undone
    (macro commands included), no command's snapshot, class or target
    changes, and no light or stereo object changes; only fans and the
    console can. *)
Theorem undo_keeps_commands (n : nat) (c : ref) (h h' : Heap) :
  undo n c h = Ok h' →
  cmds h' = cmds h ∧ lights h' = lights h ∧ stereos h' = stereos h.
Proof.
  revert c h h'. induction n as [| n IH]; intros c h h' H; [discriminate |].
  rewrite undo_S in H.
  destruct (cmds h !! c) as [[| l | s | cls f p | cs] |] eqn:Hc;
    try discriminate.
  - by injection H as <-.
  - unfold Light_on in H. destruct (lights h !! l); [| discriminate].
    by injection H as <-.
  - unfold Stereo_off in H. destruct (stereos h !! s); [| discriminate].
    by injection H as <-.
  - by eapply CeilingFanCommand_undo_cmds.
  - by eapply forEach_cmds.
Qed.

Lemma undo_keeps_commands_witness :
  ∃ h', undo 20 19%nat wired_macro_heap = Ok h' ∧
        cmds h' = cmds wired_macro_heap.
Proof.
  destruct (undo_total 20%nat 19%nat wired_macro_heap wired_macro_heap_valid)
    as [h' H]; [lia | rewrite wired_macro_heap_length; lia |].
  exists h'. split; [exact H |].
  exact (proj1 (undo_keeps_commands 20%nat 19%nat wired_macro_heap h' H)).
Defined.

(** * Further properties of commands *)

(** X8. A fan command touches only its own fan and its own snapshot:
    [execute] returns, sets that fan to the class's speed, stores the fan's
    earlier speed in that command, prints one line, and leaves every other
    fan, every other command, the lights and the stereos as they were. *)
Theorem fan_execute_touches_own
    (n : nat) (h : Heap) (c f : ref) (cls : FanCommandClass) (p : Z)
    (o : CeilingFan) :
  cmds h !! c = Some (CeilingFanCommand cls f p) →
  fans h !! f = Some o →
  ∃ h1,
    execute (S n) c h = Ok h1 ∧
    fans h1 !! f = Some {| location := location o; speed := fan_target cls |} ∧
    cmds h1 !! c = Some (CeilingFanCommand cls f (speed o)) ∧
    (∀ f', f' ≠ f → fans h1 !! f' = fans h !! f') ∧
    (∀ c', c' ≠ c → cmds h1 !! c' = cmds h !! c') ∧
    lights h1 = lights h ∧ stereos h1 = stereos h ∧
    console h1 = console h ++ [location o +:+ fan_phrase cls].
Proof.
  intros Hc Hf. exists (after_execute h c f cls o).
  split; [by eapply execute_fan |].
  split; [by apply after_execute_fan |].
  split; [by eapply after_execute_cmd |].
  split; [intros; by apply after_execute_other_fan |].
  split; [intros; by apply after_execute_other_cmd |].
  by simpl.
Qed.

Lemma fan_execute_touches_own_witness :
  ∃ h1,
    execute 1 16%nat wired_heap = Ok h1 ∧
    fans h1 !! 0%nat = Some {| location := "Living Room"; speed := HIGH |} ∧
    cmds h1 !! 16%nat = Some (CeilingFanCommand CeilingFanHighCommand 0%nat OFF) ∧
    (∀ f', f' ≠ 0%nat → fans h1 !! f' = fans wired_heap !! f') ∧
    (∀ c', c' ≠ 16%nat → cmds h1 !! c' = cmds wired_heap !! c') ∧
    lights h1 = lights wired_heap ∧ stereos h1 = stereos wired_heap ∧
    console h1 = console wired_heap ++ ["Living Room ceiling fan is on high"].
Proof.
  apply (fan_execute_touches_own 0%nat wired_heap 16%nat 0%nat
           CeilingFanHighCommand OFF
           {| location := "Living Room"; speed := OFF |}); reflexivity.
Defined.

(** The [undo] of a fan command whose fan exists returns, changes no
    command, keeps the fan's location and, when the snapshot is a level,
    leaves the fan at the snapshot. *)
Lemma undo_fan n h c f cls p o :
  cmds h !! c = Some (CeilingFanCommand cls f p) →
  fans h !! f = Some o →
  ∃ h' o',
    undo (S n) c h = Ok h' ∧ cmds h' = cmds h ∧
    fans h' !! f = Some o' ∧ location o' = location o ∧
    (is_level p → speed o' = p).
Proof.
  intros Hc Hf. rewrite undo_S, Hc. unfold CeilingFanCommand_undo.
  assert (Hset : ∀ v what, ∃ h' o',
            CeilingFan_set f v what h = Ok h' ∧ cmds h' = cmds h ∧
            fans h' !! f = Some o' ∧ location o' = location o ∧ speed o' = v).
  { intros v what. unfold CeilingFan_set. rewrite Hf.
    do 2 eexists. split; [reflexivity |]. split; [reflexivity |]. simpl.
    split; [apply list_lookup_insert_eq; by eapply lookup_lt_Some | done]. }
  destruct (p =? HIGH) eqn:E3.
  { destruct (Hset HIGH " ceiling fan is on high") as (h' & o' & ? & ? & ? & ? & ?).
    exists h', o'. repeat split; auto. intros _. apply Z.eqb_eq in E3. congruence. }
  destruct (p =? MEDIUM) eqn:E2.
  { destruct (Hset MEDIUM " ceiling fan is on medium") as (h' & o' & ? & ? & ? & ? & ?).
    exists h', o'. repeat split; auto. intros _. apply Z.eqb_eq in E2. congruence. }
  destruct (p =? LOW) eqn:E1.
  { destruct (Hset LOW " ceiling fan is on low") as (h' & o' & ? & ? & ? & ? & ?).
    exists h', o'. repeat split; auto. intros _. apply Z.eqb_eq in E1. congruence. }
  destruct (p =? OFF) eqn:E0.
  { destruct (Hset OFF " ceiling fan is off") as (h' & o' & ? & ? & ? & ? & ?).
    exists h', o'. repeat split; auto. intros _. apply Z.eqb_eq in E0. congruence. }
  exists h, o. repeat split; auto.
  intros [-> | [-> | [-> | ->]]]; discriminate.
Qed.

(** X9. A macro command's [undo] runs in the order of [execute], so it does
    not take the device back: for a macro of two fan commands [a] then [b]
    on one fan, [execute] leaves the fan at [b]'s speed and the [undo] that
    follows leaves it at [a]'s speed, whatever the speed before the macro
    ran. *)
Theorem macro_undo_leaves_first_target
    (n : nat) (h : Heap) (m a b f : ref) (ka kb : FanCommandClass)
    (pa pb : Z) (o : CeilingFan) :
  cmds h !! m = Some (MacroCommand [a; b]) →
  cmds h !! a = Some (CeilingFanCommand ka f pa) →
  cmds h !! b = Some (CeilingFanCommand kb f pb) →
  fans h !! f = Some o →
  ∃ h1 h2,
    execute (S (S n)) m h = Ok h1 ∧
    undo (S (S n)) m h1 = Ok h2 ∧
    CeilingFan_getSpeed f h1 = Ok (fan_target kb) ∧
    CeilingFan_getSpeed f h2 = Ok (fan_target ka).
Proof.
  intros Hm Ha Hb Hf.
  assert (Hma : m ≠ a) by (intros ->; congruence).
  assert (Hmb : m ≠ b) by (intros ->; congruence).
  pose proof (execute_fan h a f ka pa o Ha Hf n) as He1.
  pose proof (after_execute_fan h a f ka o Hf) as Hf1.
  destruct (after_execute_fan_cmd h a f ka pa o b kb pb Ha Hb) as (pb' & Hb1).
  set (h1 := after_execute h a f ka o) in *.
  set (o1 := {| location := location o; speed := fan_target ka |}) in *.
  pose proof (execute_fan h1 b f kb pb' o1 Hb1 Hf1 n) as He2.
  pose proof (after_execute_fan h1 b f kb o1 Hf1) as Hf2.
  pose proof (after_execute_cmd h1 b f kb pb' o1 Hb1) as Hb2.
  set (h2 := after_execute h1 b f kb o1) in *.
  assert (Hm2 : cmds h2 !! m = Some (MacroCommand [a; b])).
  { subst h2 h1. by rewrite !after_execute_other_cmd. }
  assert (Ha2 : ∃ ka' pa', cmds h2 !! a = Some (CeilingFanCommand ka' f pa')).
  { destruct (decide (b = a)) as [<- | Hne]; [by eauto |].
    subst h2. rewrite after_execute_other_cmd by done.
    do 2 eexists. subst h1. by eapply after_execute_cmd. }
  destruct Ha2 as (ka' & pa' & Ha2).
  destruct (undo_fan n h2 a f ka' pa' _ Ha2 Hf2)
    as (h3 & o3 & Hu1 & Hc3 & Hf3 & _ & _).
  assert (Hb3 : cmds h3 !! b = Some (CeilingFanCommand kb f (speed o1)))
    by (by rewrite Hc3).
  destruct (undo_fan n h3 b f kb (speed o1) o3 Hb3 Hf3)
    as (h4 & o4 & Hu2 & _ & Hf4 & _ & Hsp).
  exists h2, h4.
  split; [rewrite execute_S, Hm; cbn [forEach];
          rewrite He1, result_bind_Ok, He2; reflexivity |].
  split; [rewrite undo_S, Hm2; cbn [forEach]; rewrite Hu1, result_bind_Ok, Hu2;
          reflexivity |].
  unfold CeilingFan_getSpeed. rewrite Hf2, Hf4. split; [reflexivity |].
  f_equal. apply Hsp, fan_target_level.
Qed.

Lemma macro_undo_leaves_first_target_witness :
  ∃ h1 h2,
    execute 2 19%nat wired_macro_heap = Ok h1 ∧
    undo 2 19%nat h1 = Ok h2 ∧
    CeilingFan_getSpeed 0%nat h1 = Ok LOW ∧
    CeilingFan_getSpeed 0%nat h2 = Ok HIGH.
Proof.
  apply (macro_undo_leaves_first_target 0%nat wired_macro_heap 19%nat 16%nat
           17%nat 0%nat CeilingFanHighCommand CeilingFanLowCommand OFF OFF
           {| location := "Living Room"; speed := OFF |}); reflexivity.
Defined.

(** X10. A macro command that is its own first child never returns: with
    any call depth allowed, [execute] and [undo] end in the stack overflow
    and not in a result. *)
Theorem self_containing_macro_overflows
    (n : nat) (h : Heap) (m : ref) (rest : list ref) :
  cmds h !! m = Some (MacroCommand (m :: rest)) →
  execute n m h = Throw RangeError ∧ undo n m h = Throw RangeError.
Proof.
  intros Hm. induction n as [| n [IHe IHu]]; [done |].
  rewrite execute_S, undo_S, Hm. simpl. by rewrite IHe, IHu.
Qed.

Lemma self_containing_macro_overflows_witness :
  execute 50 0%nat (set_cmds [MacroCommand [0%nat]] empty_heap) = Throw RangeError ∧
  undo 50 0%nat (set_cmds [MacroCommand [0%nat]] empty_heap) = Throw RangeError.
Proof.
  apply (self_containing_macro_overflows 50%nat
           (set_cmds [MacroCommand [0%nat]] empty_heap) 0%nat []).
  reflexivity.
Defined.

Lemma forEach_app g cs1 cs2 h :
  forEach g (cs1 ++ cs2) h = forEach g cs1 h ≫= forEach g cs2.
Proof.
  revert h. induction cs1 as [| c cs1 IH]; intros h; simpl; [done |].
  destruct (g c h) as [h1 | e]; simpl; [apply IH | done].
Qed.

Lemma frame_MacroCommand h h' m cs :
  frame h h' → cmds h !! m = Some (MacroCommand cs) →
  cmds h' !! m = Some (MacroCommand cs).
Proof.
  intros Hfr Hm. destruct (frame_lookup h h' m _ Hfr Hm) as (x' & Hx & Hs).
  destruct x'; simpl in Hs; try done. by subst.
Qed.

(** X11. Nesting is flattening: a macro command of two macro commands runs
    the children of the first and then the children of the second, exactly
    as one macro command of the concatenated lists would, for [execute] and
    for [undo]. *)
Theorem nested_macro_flattens
    (n : nat) (h : Heap) (m m1 m2 : ref) (cs1 cs2 : list ref) :
  cmds h !! m = Some (MacroCommand [m1; m2]) →
  cmds h !! m1 = Some (MacroCommand cs1) →
  cmds h !! m2 = Some (MacroCommand cs2) →
  execute (S (S n)) m h = forEach (execute n) (cs1 ++ cs2) h ∧
  undo (S (S n)) m h = forEach (undo n) (cs1 ++ cs2) h.
Proof.
  intros Hm H1 H2. split.
  - rewrite execute_S, Hm, forEach_app. cbn [forEach].
    rewrite execute_S, H1.
    destruct (forEach (execute n) cs1 h) as [h1 | e] eqn:E; [| done].
    rewrite !result_bind_Ok, execute_S.
    rewrite (frame_MacroCommand h h1 m2 cs2); [| | exact H2].
    + by destruct (forEach (execute n) cs2 h1).
    + eapply rtc_prim_frame, forEach_prim; [apply execute_prim | exact E].
  - rewrite undo_S, Hm, forEach_app. cbn [forEach].
    rewrite undo_S, H1.
    destruct (forEach (undo n) cs1 h) as [h1 | e] eqn:E; [| done].
    rewrite !result_bind_Ok, undo_S.
    rewrite (frame_MacroCommand h h1 m2 cs2); [| | exact H2].
    + by destruct (forEach (undo n) cs2 h1).
    + eapply rtc_prim_frame, forEach_prim; [apply undo_prim | exact E].
Qed.

Lemma nested_macro_flattens_witness :
  execute 3 21%nat nested_macro_heap
  = forEach (execute 1) ([16] ++ [17])%nat nested_macro_heap ∧
  undo 3 21%nat nested_macro_heap
  = forEach (undo 1) ([16] ++ [17])%nat nested_macro_heap.
Proof.
  apply (nested_macro_flattens 1%nat nested_macro_heap 21%nat 19%nat 20%nat
           [16]%nat [17]%nat); reflexivity.
Defined.

(** ** A second [undo] *)

Lemma fan_write_length l w : length (fan_write l w) = length l.
Proof. apply length_alter. Qed.

Lemma fan_writes_length ws : ∀ l, length (fan_writes ws l) = length l.
Proof.
  unfold fan_writes. induction ws as [| w ws IH]; intros l; simpl; [done |].
  by rewrite IH, fan_write_length.
Qed.

Lemma fan_writes_app ws1 ws2 l :
  fan_writes (ws1 ++ ws2) l = fan_writes ws2 (fan_writes ws1 l).
Proof. apply foldl_app. Qed.

Lemma fan_write_same l w w' :
  w.1 = w'.1 → fan_write (fan_write l w) w' = fan_write l w'.
Proof.
  intros E. unfold fan_write. rewrite E, list_alter_alter_eq.
  by apply list_alter_ext.
Qed.

Lemma fan_write_comm l w w' :
  w.1 ≠ w'.1 → fan_write (fan_write l w) w' = fan_write (fan_write l w') w.
Proof. intros E. unfold fan_write. by apply list_alter_alter_ne. Qed.

(** An earlier write of [w] is absorbed by a later one. *)
Lemma fan_writes_absorb ws :
  ∀ l w, fan_write (fan_writes ws (fan_write l w)) w
         = fan_write (fan_writes ws l) w.
Proof.
  induction ws as [| w' ws IH]; intros l w; simpl.
  - by apply fan_write_same.
  - destruct (decide (w.1 = w'.1)) as [E | E].
    + by rewrite (fan_write_same l w w').
    + rewrite (fan_write_comm l w w') by done. apply IH.
Qed.

Lemma fan_writes_idem ws :
  ∀ l, fan_writes ws (fan_writes ws l) = fan_writes ws l.
Proof.
  induction ws as [| w ws IH] using rev_ind; intros l; [done |].
  rewrite !fan_writes_app. simpl.
  by rewrite fan_writes_absorb, IH.
Qed.

Lemma CeilingFan_set_write f v what h o :
  fans h !! f = Some o →
  ∃ h', CeilingFan_set f v what h = Ok h' ∧
        fans h' = fan_write (fans h) (f, v) ∧
        cmds h' = cmds h ∧ lights h' = lights h ∧ stereos h' = stereos h.
Proof.
  intros Hf. unfold CeilingFan_set. rewrite Hf. eexists.
  split; [reflexivity |]. simpl. split; [| done].
  unfold fan_write. simpl. apply list_eq. intros i.
  destruct (decide (i = f)) as [-> | Hne].
  - rewrite list_lookup_insert_eq by (by eapply lookup_lt_Some).
    by rewrite list_lookup_alter_eq, Hf.
  - rewrite list_lookup_insert_ne by done.
    by rewrite list_lookup_alter_ne.
Qed.

Lemma CeilingFanCommand_undo_cases f p :
  (∃ v what, ∀ g, CeilingFanCommand_undo f p g = CeilingFan_set f v what g) ∨
  (∀ g, CeilingFanCommand_undo f p g = Ok g).
Proof.
  unfold CeilingFanCommand_undo.
  destruct (p =? HIGH); [left; by do 2 eexists |].
  destruct (p =? MEDIUM); [left; by do 2 eexists |].
  destruct (p =? LOW); [left; by do 2 eexists |].
  destruct (p =? OFF); [left; by do 2 eexists |].
  by right.
Qed.

Lemma same_setting_refl h : same_setting h h.
Proof. by repeat split. Qed.

Lemma does_same_setting u ws h g g1 :
  same_setting h g → u g = Ok g1 →
  does u ws g → same_setting h g1 ∧ fans g1 = fan_writes ws (fans g).
Proof.
  intros (Hc & Hl & Hs & Hf) Hu (g1' & Hu' & Hw & Hc' & Hl' & Hs').
  rewrite Hu in Hu'. injection Hu' as <-.
  split; [| done]. repeat split; try congruence.
  by rewrite Hw, fan_writes_length.
Qed.

Lemma forEach_writes (u : ref → Heap → result Heap) :
  (∀ c h h1, u c h = Ok h1 →
     ∃ ws, ∀ g, same_setting h g → does (u c) ws g) →
  ∀ cs h h1, forEach u cs h = Ok h1 →
     ∃ ws, ∀ g, same_setting h g → does (forEach u cs) ws g.
Proof.
  intros Hu. induction cs as [| c cs IH]; intros h h1 H; simpl in H.
  - exists []. intros g Hg. exists g. by simpl.
  - apply bind_Ok in H as (h' & H1 & H2).
    destruct (Hu _ _ _ H1) as (ws1 & Hws1).
    destruct (IH _ _ H2) as (ws2 & Hws2).
    exists (ws1 ++ ws2). intros g Hg.
    destruct (does_same_setting _ ws1 h h h' (same_setting_refl h) H1
                (Hws1 h (same_setting_refl h))) as [Hh' _].
    destruct (Hws1 g Hg) as (g1 & Hg1 & Hw1 & Hc1 & Hl1 & Hs1).
    assert (Hg1' : same_setting h' g1).
    { destruct Hh' as (A1 & A2 & A3 & A4). destruct Hg as (B1 & B2 & B3 & B4).
      repeat split; try congruence.
      rewrite Hw1, fan_writes_length. congruence. }
    destruct (Hws2 g1 Hg1') as (g2 & Hg2 & Hw2 & Hc2 & Hl2 & Hs2).
    exists g2. simpl. rewrite Hg1. simpl.
    split; [exact Hg2 |].
    split; [by rewrite fan_writes_app, <- Hw1 |].
    repeat split; congruence.
Qed.

(** What an [undo] that returned did, it does on every heap with the same
    commands. *)
Lemma undo_writes n :
  ∀ c h h1, undo n c h = Ok h1 →
    ∃ ws, ∀ g, same_setting h g → does (undo n c) ws g.
Proof.
  induction n as [| n IH]; intros c h h1 H; [discriminate |].
  rewrite undo_S in H.
  destruct (cmds h !! c) as [[| l | s | cls f p | cs] |] eqn:Hc;
    try discriminate.
  - exists []. intros g (Eg & _). exists g.
    by rewrite undo_S, Eg, Hc.
  - unfold Light_on in H. destruct (lights h !! l) as [o |] eqn:Ho;
      [| discriminate].
    exists []. intros g (Eg & El & _).
    exists (console_log (Light_location o +:+ " light is on") g).
    rewrite undo_S, Eg, Hc. unfold Light_on. by rewrite El, Ho.
  - unfold Stereo_off in H. destruct (stereos h !! s) as [o |] eqn:Ho;
      [| discriminate].
    exists []. intros g (Eg & _ & Es & _).
    exists (console_log "Stereo is off" g).
    rewrite undo_S, Eg, Hc. unfold Stereo_off. by rewrite Es, Ho.
  - destruct (CeilingFanCommand_undo_cases f p) as [(v & what & Hset) | Hno].
    + rewrite Hset in H. exists [(f, v)]. intros g (Eg & El & Es & Ef).
      assert (Hf : is_Some (fans g !! f)).
      { apply lookup_lt_is_Some. rewrite Ef.
        unfold CeilingFan_set in H.
        destruct (fans h !! f) eqn:E; [by eapply lookup_lt_Some | discriminate]. }
      destruct Hf as [o' Ho'].
      destruct (CeilingFan_set_write f v what g o' Ho')
        as (g1 & Hg1 & Hw & Hrest).
      exists g1. split; [by rewrite undo_S, Eg, Hc, Hset |].
      split; [exact Hw | exact Hrest].
    + exists []. intros g (Eg & _). exists g.
      by rewrite undo_S, Eg, Hc, Hno.
  - destruct (forEach_writes (undo n) IH cs h h1 H) as (ws & Hws).
    exists ws. intros g Hg. destruct (Hws g Hg) as (g1 & Hg1 & Hrest).
    exists g1. split; [| exact Hrest].
    destruct Hg as (Eg & _). by rewrite undo_S, Eg, Hc.
Qed.

Lemma undo_again n c h h1 :
  undo n c h = Ok h1 →
  ∃ h2, undo n c h1 = Ok h2 ∧ devices h2 = devices h1 ∧ cmds h2 = cmds h1.
Proof.
  intros H. destruct (undo_writes n c h h1 H) as (ws & Hws).
  destruct (does_same_setting _ ws h h h1 (same_setting_refl h) H
              (Hws h (same_setting_refl h))) as [Hh1 Hw1].
  destruct (Hws h1 Hh1) as (h2 & Hu & Hw2 & Hc2 & Hl2 & Hs2).
  exists h2. split; [exact Hu |]. split; [| exact Hc2].
  unfold devices. rewrite Hl2, Hs2, Hw2, Hw1. by rewrite fan_writes_idem.
Qed.

(** X12. A second [undo] changes nothing but the console: when the [undo]
    of a command (macro commands included) returned, the same [undo] called
    again returns too and leaves every fan, light, stereo and command as
    the first one left them; and so do two pushes of the remote's undo
    button. *)
Theorem undo_twice_is_undo_once (n : nat) (c : ref) (h h1 : Heap)
    (rc : RemoteLoaderWithUndo.t) :
  (undo n c h = Ok h1 →
   ∃ h2, undo n c h1 = Ok h2 ∧ devices h2 = devices h1 ∧ cmds h2 = cmds h1) ∧
  (undoButtonWasPushed n (rc, h) = Ok (rc, h1) →
   ∃ h2, undoButtonWasPushed n (rc, h1) = Ok (rc, h2) ∧
         devices h2 = devices h1 ∧ cmds h2 = cmds h1).
Proof.
  split; [apply undo_again |].
  unfold undoButtonWasPushed. simpl. intros H.
  apply bind_Ok in H as (h1' & H & [= <-]).
  destruct (undo_again n _ h h1' H) as (h2 & Hu & Hrest).
  exists h2. by rewrite Hu.
Qed.

Lemma undo_twice_is_undo_once_witness :
  ∃ h1 h2, undo 20 19%nat wired_macro_heap = Ok h1 ∧
           undo 20 19%nat h1 = Ok h2 ∧
           devices h2 = devices h1 ∧ cmds h2 = cmds h1.
Proof.
  destruct (undo_total 20%nat 19%nat wired_macro_heap wired_macro_heap_valid)
    as [h1 H]; [lia | rewrite wired_macro_heap_length; lia |].
  destruct (proj1 (undo_twice_is_undo_once 20%nat 19%nat wired_macro_heap h1
                     wired_remote) H) as (h2 & Hu & Hd & Hc).
  exists h1, h2. auto.
Defined.

(** * [Singleton] *)

Lemma Singleton_getInstances_fixed count :
  ∀ k r, Singleton.uniqueInstance k = Some r →
         Singleton.getInstances count k = (replicate count r, k).
Proof.
  induction count as [| n IH]; intros k r Hk; simpl; [done |].
  unfold Singleton.getInstance. rewrite Hk. by rewrite (IH k r Hk).
Qed.

(** X13. One instance: however many times [getInstance] is called in a row,
    every call returns the object the first call returned and the class is
    left as the first call left it; from the initial class exactly one
    [Singleton] is ever constructed. *)
Theorem Singleton_one_instance (count : nat) (k : Singleton.Class) :
  Singleton.getInstances (S count) k
  = (replicate (S count) (Singleton.getInstance k).1,
     (Singleton.getInstance k).2) ∧
  Singleton.uniqueInstance (Singleton.getInstance k).2
  = Some (Singleton.getInstance k).1 ∧
  (Singleton.constructed (Singleton.getInstance k).2
   ≤ S (Singleton.constructed k))%nat ∧
  Singleton.constructed (Singleton.getInstances (S count) Singleton.initial).2
  = 1%nat.
Proof.
  assert (Hu : Singleton.uniqueInstance (Singleton.getInstance k).2
               = Some (Singleton.getInstance k).1).
  { unfold Singleton.getInstance.
    by destruct (Singleton.uniqueInstance k) eqn:E. }
  assert (Hall : ∀ k', Singleton.uniqueInstance (Singleton.getInstance k').2
                       = Some (Singleton.getInstance k').1 →
            Singleton.getInstances (S count) k'
            = (replicate (S count) (Singleton.getInstance k').1,
               (Singleton.getInstance k').2)).
  { intros k' Hk'. cbn [Singleton.getInstances].
    destruct (Singleton.getInstance k') as [r k1] eqn:E. simpl in *.
    by rewrite (Singleton_getInstances_fixed count k1 r Hk'). }
  split; [by apply Hall |]. split; [exact Hu |]. split.
  - unfold Singleton.getInstance.
    destruct (Singleton.uniqueInstance k); simpl; lia.
  - by rewrite Hall.
Qed.

(** * [toString] *)


Lemma name_at_Ok a i h c x :
  Array_get a i = Some c → cmds h !! c = Some x →
  name_at a i h = Ok (constructor_name x).
Proof. intros Ha Hc. unfold name_at. by rewrite Ha, Hc. Qed.

Lemma name_at_None a i h :
  Array_get a i = None → name_at a i h = Throw TypeError.
Proof. intros Ha. unfold name_at. by rewrite Ha. Qed.

Lemma name_at_bound a i h c :
  Array_get a i = Some c → (c < length (cmds h))%nat →
  ∃ name, name_at a i h = Ok name.
Proof.
  intros Ha Hc. destruct (lookup_lt_is_Some_2 (cmds h) c Hc) as [x Hx].
  eexists. by eapply name_at_Ok.
Qed.

(** The loop returns when every slot it visits is bound. *)
Lemma listing_Ok count :
  ∀ i on off h buff,
    slots_in_heap on off h →
    (∀ j, i ≤ j < i + Z.of_nat count →
          is_Some (Array_get on j) ∧ is_Some (Array_get off j)) →
    ∃ text, listing count i on off h buff = Ok text.
Proof.
  induction count as [| k IH]; intros i on off h buff Hin Hd;
    cbn [listing]; [eauto |].
  destruct (Hd i) as [[a Ha] [b Hb]]; [lia |].
  destruct (name_at_bound on i h a Ha) as [na ->]; [by eapply Hin; eauto |].
  destruct (name_at_bound off i h b Hb) as [nb ->]; [by eapply Hin; eauto |].
  rewrite !result_bind_Ok. apply IH; [done |]. intros j Hj. apply Hd. lia.
Qed.

(** The loop is a [TypeError] when it visits an unbound slot. *)
Lemma listing_hole count :
  ∀ i on off h buff k,
    slots_in_heap on off h →
    i ≤ k < i + Z.of_nat count →
    Array_get on k = None ∨ Array_get off k = None →
    listing count i on off h buff = Throw TypeError.
Proof.
  induction count as [| n IH]; intros i on off h buff k Hin Hk Hnone;
    [lia |].
  cbn [listing].
  destruct (Array_get on i) as [a |] eqn:Ha;
    [| by rewrite (name_at_None on i h Ha)].
  destruct (name_at_bound on i h a Ha) as [na ->]; [by eapply Hin; eauto |].
  rewrite result_bind_Ok.
  destruct (Array_get off i) as [b |] eqn:Hb;
    [| by rewrite (name_at_None off i h Hb)].
  destruct (name_at_bound off i h b Hb) as [nb ->]; [by eapply Hin; eauto |].
  rewrite result_bind_Ok. apply (IH _ _ _ _ _ k); [done | | done].
  destruct (decide (k = i)) as [-> | Hne]; [| lia].
  destruct Hnone; congruence.
Qed.

Lemma toString_range (l j : Z) :
  0 ≤ j < 0 + Z.of_nat (Z.to_nat l) ↔ 0 ≤ j < l.
Proof. lia. Qed.

(** X14. [toString] lists a table without gaps and only such a table: when
    every bound command is in the heap, [toString] returns a text if and
    only if every slot below the table's length is bound for on and for off,
    and it is a [TypeError] as soon as one of them is [undefined]; the same
    holds for the remote without undo. *)
Theorem toString_returns_iff_dense
    (rc : RemoteLoaderWithUndo.t) (rc0 : RemoteControl.t) (h : Heap) :
  (slots_in_heap (onCommands rc) (offCommands rc) h →
   ((∃ text, RemoteLoaderWithUndo_toString rc h = Ok text)
    ↔ dense (onCommands rc) (offCommands rc)) ∧
   (∀ k, 0 ≤ k < len (onCommands rc) →
         Array_get (onCommands rc) k = None ∨
         Array_get (offCommands rc) k = None →
         RemoteLoaderWithUndo_toString rc h = Throw TypeError)) ∧
  (slots_in_heap (RemoteControl.onCommands rc0) (RemoteControl.offCommands rc0) h →
   ((∃ text, RemoteControl_toString rc0 h = Ok text)
    ↔ dense (RemoteControl.onCommands rc0) (RemoteControl.offCommands rc0)) ∧
   (∀ k, 0 ≤ k < len (RemoteControl.onCommands rc0) →
         Array_get (RemoteControl.onCommands rc0) k = None ∨
         Array_get (RemoteControl.offCommands rc0) k = None →
         RemoteControl_toString rc0 h = Throw TypeError)).
Proof.
  assert (Hgen : ∀ on off,
    slots_in_heap on off h →
    ((∃ text, listing (Z.to_nat (len on)) 0 on off h listing_header = Ok text)
     ↔ dense on off) ∧
    (∀ k, 0 ≤ k < len on →
          Array_get on k = None ∨ Array_get off k = None →
          listing (Z.to_nat (len on)) 0 on off h listing_header
          = Throw TypeError)).
  { intros on off Hin.
    assert (Hhole : ∀ k, 0 ≤ k < len on →
              Array_get on k = None ∨ Array_get off k = None →
              listing (Z.to_nat (len on)) 0 on off h listing_header
              = Throw TypeError).
    { intros k Hk Hnone. apply (listing_hole _ _ _ _ _ _ k); [done | | done].
      by apply toString_range. }
    split; [| exact Hhole]. split.
    - intros [text Ht] j Hj.
      destruct (Array_get on j) eqn:Ha;
        [| rewrite (Hhole j Hj) in Ht; [discriminate | by left]].
      destruct (Array_get off j) eqn:Hb;
        [| rewrite (Hhole j Hj) in Ht; [discriminate | by right]].
      split; eauto.
    - intros Hd. apply listing_Ok; [done |].
      intros j Hj. apply Hd. by apply toString_range. }
  split; intros Hin; by apply Hgen.
Qed.

Lemma new_slots_in_heap (h : Heap) :
  slots_in_heap (onCommands (RemoteLoaderWithUndo.new h).1)
    (offCommands (RemoteLoaderWithUndo.new h).1) (RemoteLoaderWithUndo.new h).2.
Proof.
  intros j c Hjc.
  destruct (decide (0 ≤ j < capacity)) as [Hj | Hj].
  - pose proof (new_spec h) as Hn. cbv zeta in Hn.
    destruct Hn as (_ & _ & _ & _ & _ & Hslots).
    destruct (Hslots j Hj) as (c1 & c2 & H1 & H2 & Hc1 & Hc2).
    destruct Hjc as [H | H].
    + rewrite H1 in H. injection H as <-. by eapply lookup_lt_Some.
    + rewrite H2 in H. injection H as <-. by eapply lookup_lt_Some.
  - destruct (new_outside h j Hj) as [H1 H2].
    destruct Hjc as [H | H]; congruence.
Qed.

Lemma new_dense (h : Heap) :
  dense (onCommands (RemoteLoaderWithUndo.new h).1)
    (offCommands (RemoteLoaderWithUndo.new h).1).
Proof.
  intros j Hj. pose proof (new_spec h) as Hn. cbv zeta in Hn.
  destruct Hn as (_ & _ & _ & Hlen & _ & Hslots).
  rewrite Hlen in Hj.
  destruct (Hslots j Hj) as (c1 & c2 & H1 & H2 & _). eauto.
Qed.

Lemma toString_returns_iff_dense_witness :
  (∃ text, RemoteLoaderWithUndo_toString (RemoteLoaderWithUndo.new empty_heap).1
             (RemoteLoaderWithUndo.new empty_heap).2 = Ok text)
  ↔ dense (onCommands (RemoteLoaderWithUndo.new empty_heap).1)
      (offCommands (RemoteLoaderWithUndo.new empty_heap).1).
Proof.
  exact (proj1 (proj1 (toString_returns_iff_dense
                         (RemoteLoaderWithUndo.new empty_heap).1
                         RemoteControl.new
                         (RemoteLoaderWithUndo.new empty_heap).2)
                  (new_slots_in_heap empty_heap))).
Defined.







(** * The remote without undo *)

(** X16. [RemoteControl] has no default commands: on a new one a push of any
    slot's button is a [TypeError] and [toString] returns the header alone;
    once a slot is bound, a push of its on button is [execute] of the on
    command and a push of its off button is [execute] of the off command. *)
Theorem RemoteControl_has_no_defaults (n : nat) (slot : Z) (h : Heap)
    (on off : ref) :
  RemoteControl.onButtonWasPushed n slot RemoteControl.new h = Throw TypeError ∧
  RemoteControl.offButtonWasPushed n slot RemoteControl.new h = Throw TypeError ∧
  RemoteControl_toString RemoteControl.new h = Ok listing_header ∧
  ∃ rc, RemoteControl.setCommand slot on off RemoteControl.new = Ok rc ∧
        RemoteControl.onButtonWasPushed n slot rc h = execute n on h ∧
        RemoteControl.offButtonWasPushed n slot rc h = execute n off h.
Proof.
  split; [reflexivity |]. split; [reflexivity |]. split; [reflexivity |].
  eexists. split; [reflexivity |].
  unfold RemoteControl.onButtonWasPushed, RemoteControl.offButtonWasPushed.
  cbn [RemoteControl.onCommands RemoteControl.offCommands].
  by rewrite !Array_get_set_eq.
Qed.

(** * [RemoteLoader.main] *)

(** What [main] prints after the listing, and where it leaves the fan and
    the undo target. *)
Example RemoteLoader_main_output :
  (st ← RemoteLoader_main 1;
   mret (drop 1 (console st.2), fans st.2, undoCommand st.1))
  = Ok (["Living Room ceiling fan is on medium";
         "Living Room ceiling fan is off";
         "Undoing...";
         "Living Room ceiling fan is on medium";
         "Living Room ceiling fan is on high";
         "Undoing...";
         "Living Room ceiling fan is on medium";
         "Living Room ceiling fan is on low";
         "Undoing...";
         "Living Room ceiling fan is on medium"],
        [{| location := "Living Room"; speed := MEDIUM |}],
        17%nat).
Proof. vm_compute. reflexivity. Qed.

(** * [FirstRemoteLoader.main] *)

(** [main] prints the listing of its three bound slots and nothing else. *)
Example FirstRemoteLoader_main_output :
  (h ← FirstRemoteLoader_main; mret (console h))
  = Ok [listing_header
        +:+ slot_line 0 "LightOffCommand" "LightOffCommand"
        +:+ slot_line 1 "StereoOnWithCDCommand" "StereoOnWithCDCommand"
        +:+ slot_line 2 "LightOffCommand" "LightOffCommand"].
Proof. vm_compute. reflexivity. Qed.

(** * The undo target is a command, not a slot *)

(** X17. Rebinding does not retarget undo: after a push of a slot's on
    button, binding any slot (that one included) to other commands leaves
    the undo target as it is, so the undo button still undoes the command
    that was executed. *)
Theorem undo_after_rebinding
    (n : nat) (rc : RemoteLoaderWithUndo.t) (h : Heap) (slot slot' : Z)
    (c on off : ref) :
  Array_get (onCommands rc) slot = Some c →
  (st1 ← onButtonWasPushed n slot (rc, h);
   rc' ← setCommand slot' on off st1.1;
   undoButtonWasPushed n (rc', st1.2))
  = (h1 ← execute n c h;
     h2 ← undo n c h1;
     mret ({| onCommands := Array_set (onCommands rc) slot' on;
              offCommands := Array_set (offCommands rc) slot' off;
              undoCommand := c |}, h2)).
Proof.
  intros Hs. unfold onButtonWasPushed. cbn [fst snd]. rewrite Hs.
  destruct (execute n c h) as [h1 | e]; [| reflexivity].
  rewrite !result_bind_Ok. unfold undoButtonWasPushed. simpl.
  by destruct (undo n c h1).
Qed.

Lemma undo_after_rebinding_witness :
  (st1 ← onButtonWasPushed 1 1 (wired_remote, wired_heap);
   rc' ← setCommand 1 17%nat 18%nat st1.1;
   undoButtonWasPushed 1 (rc', st1.2))
  = (h1 ← execute 1 16%nat wired_heap;
     h2 ← undo 1 16%nat h1;
     mret ({| onCommands := Array_set (onCommands wired_remote) 1 17%nat;
              offCommands := Array_set (offCommands wired_remote) 1 18%nat;
              undoCommand := 16%nat |}, h2)).
Proof.
  apply (undo_after_rebinding 1%nat wired_remote wired_heap 1 1
           16%nat 17%nat 18%nat).
  reflexivity.
Defined.

(** * No call fails *)



